(** * c10::SymInt: the tagged symbolic integer of c10/core/SymInt.cpp

    A [SymInt] is one signed 64-bit word that either is a concrete integer
    or carries the address of a reference-counted [SymIntNodeImpl].  This
    file embeds the member functions defined in [c10/core/SymInt.cpp]
    ([normalize_symints], [toSymIntNodeImpl], [toSymInt], [guard_int], the
    arithmetic and comparison operators and their [int64_t] overloads) and
    proves properties of them.

    The translation unit is embedded as state-passing code:
    - the words are [Z] with the wrap-around of [int64_t]/[uint64_t]
      written out;
    - the intrusive reference counts live in a finite map from node
      addresses to counts;
    - the virtual [SymIntNodeImpl] interface is a type class, every virtual
      call is recorded in a log together with what it returned;
    - exceptions ([TORCH_CHECK], [TORCH_INTERNAL_ASSERT], failures raised by
      a node) are an explicit outcome, and the destructors that stack
      unwinding runs are written out. *)

From stdpp Require Import gmap strings.

Open Scope Z_scope.

(** ** Machine integers *)

(** [static_cast<uint64_t>] of a mathematical integer. *)
Definition to_u64 (x : Z) : Z := x mod 2 ^ 64.

(** [static_cast<int64_t>]: the two's-complement reading of the low 64 bits. *)
Definition to_i64 (x : Z) : Z := (x + 2 ^ 63) mod 2 ^ 64 - 2 ^ 63.

Definition in_i64 (x : Z) : Prop := - 2 ^ 63 <= x < 2 ^ 63.

(** ** Outcomes of a call *)

Inductive failure : Type :=
| CheckFailed
    (** [TORCH_CHECK(cond)] with [cond] false *)
| InternalAssertFailed (msg : string)
    (** [TORCH_INTERNAL_ASSERT(false, msg)] *)
| NodeFailure (file : string) (line : Z)
    (** a failure raised by a node, carrying the location it was given *)
| Undefined.
    (** no defined behaviour: a call through a null node pointer, a native
        division by zero *)

Inductive outcome (A : Type) : Type :=
| Ok (a : A)
| Fail (e : failure).
Arguments Ok {A} a.
Arguments Fail {A} e.

(** ** A state monad with failure

    The state reached when a failure is raised is kept: the destructors run
    by unwinding act on it. *)

Definition St (S A : Type) : Type := S -> outcome A * S.

Definition ret {S A} (a : A) : St S A := fun s => (Ok a, s).

Definition bind {S A B} (m : St S A) (k : A -> St S B) : St S B :=
  fun s => match m s with
           | (Ok a, s') => k a s'
           | (Fail e, s') => (Fail e, s')
           end.

Definition throw {S A} (e : failure) : St S A := fun s => (Fail e, s).

Definition get {S} : St S S := fun s => (Ok s, s).

Definition modify {S} (f : S -> S) : St S unit := fun s => (Ok tt, f s).

(** [finally m cleanup]: run [m], then [cleanup] whether [m] returned or
    raised (the destructor of a local at the end of its scope). *)
Definition finally {S A} (m : St S A) (cleanup : S -> S) : St S A :=
  fun s => let '(r, s') := m s in (r, cleanup s').

Declare Scope st_scope.
Delimit Scope st_scope with st.
Notation "x <- m ;; k" := (bind m (fun x => k))
  (at level 100, m at next level, right associativity) : st_scope.
Notation "m ;;; k" := (bind m (fun _ => k))
  (at level 100, right associativity) : st_scope.
Open Scope st_scope.

(** ** Node handles and the reference counts *)

(** [SymIntNode] is [c10::intrusive_ptr<SymIntNodeImpl>]: the address of the
    node it shares, [0] for the null handle. *)
Abbreviation SymIntNode := Z (only parsing).

Definition null : SymIntNode := 0.

Definition is_null (p : SymIntNode) : bool := p =? 0.

(** What a node implementation can see and change: the reference counts of
    the live nodes, by address, and its own expression graph. *)
Record heap (G : Type) : Type := Heap {
  refcount : gmap Z nat;
  graph : G
}.
Arguments Heap {G} refcount graph.
Arguments refcount {G} h.
Arguments graph {G} h.

(** Modelled from the spec: the intrusive handle type of
    [c10/util/intrusive_ptr.h] is not among the sources.  Taking a new handle
    on a node increments its count exactly once; the null handle counts
    nothing. *)
Definition retain_ {G} (p : SymIntNode) (h : heap G) : heap G :=
  if is_null p then h
  else Heap (<[p := S (default 0%nat (refcount h !! p))]> (refcount h)) (graph h).

(** Modelled from the spec: destroying a handle decrements the count of its
    referent exactly once, and the node is freed when the count reaches
    zero. *)
Definition reset_ {G} (p : SymIntNode) (h : heap G) : heap G :=
  if is_null p then h
  else match refcount h !! p with
       | Some (S (S n)) => Heap (<[p := S n]> (refcount h)) (graph h)
       | _ => Heap (delete p (refcount h)) (graph h)
       end.

(** ** The node interface *)

(** The binary virtual methods of [SymIntNodeImpl] called by this file. *)
Inductive binop : Type :=
| op_add | op_sub | op_mul | op_floordiv | op_mod
| op_eq | op_lt | op_le | op_gt | op_ge.

(** The operation set a node implementation provides.  Each method receives
    the address of the node it is called on; those that return a node return
    a handle that owns one unit of its referent's count. *)
Class SymIntNodeImpl (G : Type) : Type := {
  node_wrap : Z -> Z -> heap G -> outcome SymIntNode * heap G;
  node_binary : binop -> Z -> SymIntNode -> heap G -> outcome SymIntNode * heap G;
  node_bool_ : Z -> heap G -> outcome bool * heap G;
  node_guard_int : Z -> string -> Z -> heap G -> outcome Z * heap G
}.

(** A virtual call and what it returned. *)
Inductive call : Type :=
| CallWrap (self : Z) (num : Z)
| CallBinary (op : binop) (self : Z) (other : SymIntNode)
| CallBool (self : Z)
| CallGuardInt (self : Z) (file : string) (line : Z).

Inductive reply : Type :=
| RNode (p : SymIntNode)
| RBool (b : bool)
| RInt (n : Z)
| RFail (e : failure).

Definition reply_of {A} (f : A -> reply) (r : outcome A) : reply :=
  match r with Ok a => f a | Fail e => RFail e end.

(** The whole state: the heap and the log of virtual calls, newest first. *)
Record world (G : Type) : Type := World {
  mem : heap G;
  calls : list (call * reply)
}.
Arguments World {G} mem calls.
Arguments mem {G} w.
Arguments calls {G} w.

Definition on_mem {G} (f : heap G -> heap G) (w : world G) : world G :=
  World (f (mem w)) (calls w).

(** [self->method(...)]: undefined through a null pointer, otherwise the
    implementation runs on the heap and the call is logged. *)
Definition dispatch {G A} (c : call) (f : A -> reply) (self : Z)
    (m : heap G -> outcome A * heap G) : St (world G) A :=
  fun w =>
    if is_null self then (Fail Undefined, w)
    else let '(r, h') := m (mem w) in
         (r, World h' ((c, reply_of f r) :: calls w)).

(** ** Native 64-bit arithmetic

    The concrete fast paths apply the built-in operators of [int64_t].  Sums,
    differences and products wrap modulo [2^64]; [/] truncates toward zero
    and [%] takes the sign of the dividend; a zero divisor has no defined
    result. *)

Definition native_add (a b : Z) : outcome Z := Ok (to_i64 (a + b)).
Definition native_sub (a b : Z) : outcome Z := Ok (to_i64 (a - b)).
Definition native_mul (a b : Z) : outcome Z := Ok (to_i64 (a * b)).
Definition native_div (a b : Z) : outcome Z :=
  if b =? 0 then Fail Undefined else Ok (to_i64 (Z.quot a b)).
Definition native_rem (a b : Z) : outcome Z :=
  if b =? 0 then Fail Undefined else Ok (to_i64 (Z.rem a b)).

(** ** The tagged word *)

Record SymInt : Type := MkSymInt { data_ : Z }.

Section SymIntCpp.

(** [C10_MOBILE] selects the mobile build.  [MASK] and [IS_SYM] are the two
    [uint64_t] constants of the class declaration, which is not among the
    sources: they are parameters here. *)
Variable C10_MOBILE : bool.
Variables MASK IS_SYM : Z.
Context {G : Type} {impl : SymIntNodeImpl G}.

(** Modelled from the spec: [is_symbolic] is an inline member of the class
    declaration in [c10/core/SymInt.h], which is not among the sources.  It
    tests the reserved tag of the word without touching memory, and it is
    the constant [false] on the mobile build. *)
Definition is_symbolic (s : SymInt) : bool :=
  if C10_MOBILE then false
  else Z.land MASK (to_u64 (data_ s)) =? IS_SYM.

(** Modelled from the spec: the constructor from a raw [int64_t] (class
    declaration, not among the sources) holds the integer directly. *)
Definition SymInt_int64 (d : Z) : SymInt := MkSymInt d.

(** [SymInt(UNCHECKED, d)]: the raw word is taken as it is. *)
Definition SymInt_UNCHECKED (d : Z) : SymInt := MkSymInt d.

(** Modelled from the spec: [as_int_unchecked] (class declaration, not among
    the sources) reads the payload of a concrete word, which is the word. *)
Definition as_int_unchecked (s : SymInt) : Z := data_ s.

(** Modelled from the spec: [toSymIntNodeImplUnowned] (class declaration, not
    among the sources) recovers the node address by masking out the tag. *)
Definition toSymIntNodeImplUnowned (s : SymInt) : Z :=
  Z.land (to_u64 (data_ s)) (to_u64 (Z.lnot MASK)).

(** Modelled from the spec: the copy constructor (class declaration, not
    among the sources).  Copying a symbolic value increments the count of
    its referent exactly once. *)
Definition SymInt_copy (s : SymInt) : St (world G) SymInt :=
  fun w =>
    if is_symbolic s then (Ok s, on_mem (retain_ (toSymIntNodeImplUnowned s)) w)
    else (Ok s, w).

(** Modelled from the spec: the destructor (class declaration, not among the
    sources).  Destroying a symbolic value decrements the count of its
    referent exactly once. *)
Definition SymInt_destroy (s : SymInt) (w : world G) : world G :=
  if is_symbolic s then on_mem (reset_ (toSymIntNodeImplUnowned s)) w else w.

(** ** Member functions

    A member function runs on the receiver object and the world; the
    receiver is part of the state, so that what a call does to [*this] can
    be read off its result. *)

Definition method (A : Type) : Type := St (SymInt * world G) A.

Definition this : method SymInt := fun s => (Ok (fst s), s).

(** A computation that has no receiver. *)
Definition static {S A} (m : St (world G) A) : St (S * world G) A :=
  fun s => let '(r, w') := m (snd s) in (r, (fst s, w')).

(** Run a member function on one object of a larger frame. *)
Definition zoom {S T A} (rd : S -> T) (wr : T -> S -> S)
    (m : St (T * world G) A) : St (S * world G) A :=
  fun s => let '(r, (t', w')) := m (rd (fst s), snd s) in
           (r, (wr t' (fst s), w')).

(** The destructors of unwinding act on the world only. *)
Definition cleanup {S} (f : world G -> world G) (s : S * world G) : S * world G :=
  (fst s, f (snd s)).

Definition mobile_msg : string := "SymInts aren't available on mobile".

(** [SymIntNode SymInt::toSymIntNodeImpl() const] *)
Definition toSymIntNodeImpl : method SymIntNode :=
  if C10_MOBILE then throw (InternalAssertFailed mobile_msg)
  else
    s <- this ;;
    if is_symbolic s then
      (* SymIntNode::reclaim_copy(toSymIntNodeImplUnowned()) *)
      let p := toSymIntNodeImplUnowned s in
      static (modify (on_mem (retain_ p))) ;;;
      ret p
    else throw CheckFailed.

(** [c10::SymInt SymInt::toSymInt(SymIntNode sin_sp)].  The handle is the
    parameter object: [release()] gives its address up without touching the
    count; on the mobile build the assertion unwinds and the parameter is
    destroyed. *)
Definition toSymInt (sin_sp : SymIntNode) : St (world G) SymInt :=
  if C10_MOBILE then
    finally (throw (InternalAssertFailed mobile_msg)) (on_mem (reset_ sin_sp))
  else
    let ptr := to_u64 sin_sp in
    let rep := Z.lor (Z.land ptr (to_u64 (Z.lnot MASK))) IS_SYM in
    ret (SymInt_UNCHECKED (to_i64 rep)).

(** *** normalize_symints *)

(** The four objects of the body of [normalize_symints]: the two parameters
    and the two local handles. *)
Record frame : Type := Frame {
  a_ : SymInt;
  b_ : SymInt;
  a : SymIntNode;
  b : SymIntNode
}.

Definition set_a_ (s : SymInt) (f : frame) : frame := Frame s (b_ f) (a f) (b f).
Definition set_b_ (s : SymInt) (f : frame) : frame := Frame (a_ f) s (a f) (b f).

(** [a = h;] the handle held before is destroyed. *)
Definition assign_a (h : SymIntNode) : St (frame * world G) unit :=
  modify (fun s => (Frame (a_ (fst s)) (b_ (fst s)) h (b (fst s)),
                    on_mem (reset_ (a (fst s))) (snd s))).
Definition assign_b (h : SymIntNode) : St (frame * world G) unit :=
  modify (fun s => (Frame (a_ (fst s)) (b_ (fst s)) (a (fst s)) h,
                    on_mem (reset_ (b (fst s))) (snd s))).

Definition wrap (common : Z) (num : Z) : St (world G) SymIntNode :=
  dispatch (CallWrap common num) RNode common (node_wrap common num).

(** [x.toSymInt(h);] as a statement: the argument is a copy of the handle
    [h], and the [SymInt] that comes back is a temporary that dies at the
    end of the statement.  Nothing is assigned. *)
Definition toSymInt_discarded (h : SymIntNode) : St (world G) unit :=
  modify (on_mem (retain_ h)) ;;;
  t <- toSymInt h ;;
  modify (SymInt_destroy t).

(** The body of [normalize_symints], on its frame. *)
Definition normalize_symints_body : St (frame * world G) (SymIntNode * SymIntNode) :=
  if C10_MOBILE then throw (InternalAssertFailed mobile_msg)
  else
    (* if (a_.is_symbolic()) a = a_.toSymIntNodeImpl(); *)
    f <- get ;;
    (if is_symbolic (a_ (fst f))
     then h <- zoom a_ set_a_ toSymIntNodeImpl ;; assign_a h
     else ret tt) ;;;
    (* if (b_.is_symbolic()) b = b_.toSymIntNodeImpl(); *)
    f <- get ;;
    (if is_symbolic (b_ (fst f))
     then h <- zoom b_ set_b_ toSymIntNodeImpl ;; assign_b h
     else ret tt) ;;;
    (* SymIntNodeImpl* common = a ? a.get() : b.get(); *)
    f <- get ;;
    let common := if negb (is_null (a (fst f))) then a (fst f) else b (fst f) in
    (* if (!a) { a = common->wrap(a_.as_int_unchecked()); a_.toSymInt(a); } *)
    (if is_null (a (fst f))
     then h <- static (wrap common (as_int_unchecked (a_ (fst f)))) ;;
          assign_a h ;;;
          static (toSymInt_discarded h)
     else ret tt) ;;;
    (* if (!b) { b = common->wrap(b_.as_int_unchecked()); b_.toSymInt(b); } *)
    f <- get ;;
    (if is_null (b (fst f))
     then h <- static (wrap common (as_int_unchecked (b_ (fst f)))) ;;
          assign_b h ;;;
          static (toSymInt_discarded h)
     else ret tt) ;;;
    (* return {a, b}; the array holds copies of both handles *)
    f <- get ;;
    static (modify (on_mem (retain_ (a (fst f))))) ;;;
    static (modify (on_mem (retain_ (b (fst f))))) ;;;
    ret (a (fst f), b (fst f)).

(** The state in which the body of [normalize_symints(x, y)] ends, before
    any of its objects is destroyed: the parameters are copies of the
    arguments. *)
Definition normalize_symints_run (x y : SymInt) (w : world G)
    : outcome (SymIntNode * SymIntNode) * (frame * world G) :=
  match SymInt_copy x w with
  | (Ok xa, w1) =>
      match SymInt_copy y w1 with
      | (Ok ya, w2) => normalize_symints_body (Frame xa ya null null, w2)
      | (Fail e, w2) => (Fail e, (Frame xa y null null, w2))
      end
  | (Fail e, w1) => (Fail e, (Frame x y null null, w1))
  end.

(** [static std::array<SymIntNode, 2> normalize_symints(SymInt a_, SymInt b_)]:
    when the call ends, normally or not, the local handles and then the
    parameters are destroyed. *)
Definition normalize_symints (x y : SymInt) : St (world G) (SymIntNode * SymIntNode) :=
  fun w =>
    let '(r, (f, w')) := normalize_symints_run x y w in
    (r, SymInt_destroy (a_ f) (SymInt_destroy (b_ f)
          (on_mem (reset_ (a f)) (on_mem (reset_ (b f)) w')))).

(** *** guard_int *)

(** [int64_t SymInt::guard_int(const char* file, int64_t line) const] *)
Definition guard_int (file : string) (line : Z) : method Z :=
  s <- this ;;
  if negb (is_symbolic s) then ret (data_ s)
  else
    (* SymIntNode a = toSymIntNodeImpl(); *)
    h <- toSymIntNodeImpl ;;
    (* return a->guard_int(file, line); then a is destroyed *)
    finally
      (static (dispatch (CallGuardInt h file line) RInt h (node_guard_int h file line)))
      (cleanup (on_mem (reset_ h))).

(** *** The binary operators *)

Definition binary (op : binop) (self : Z) (other : SymIntNode) : St (world G) SymIntNode :=
  dispatch (CallBinary op self other) RNode self (node_binary op self other).

Definition bool_ (self : Z) : St (world G) bool :=
  dispatch (CallBool self) RBool self (node_bool_ self).

(** The array [res] dies at the end of the operator, last element first. *)
Definition destroy_res {S} (res : SymIntNode * SymIntNode) : S * world G -> S * world G :=
  cleanup (fun w => on_mem (reset_ (fst res)) (on_mem (reset_ (snd res)) w)).

(** The shape shared by [operator+], [operator-], [operator*], [operator/]
    and [operator%]: [native] is the built-in operator of the fast path,
    [op] the node method of the other path.  The parameter [sci] is an
    object of the caller's making. *)
Definition arith (native : Z -> Z -> outcome Z) (op : binop) (sci : SymInt)
    : method SymInt :=
  s <- this ;;
  if negb (is_symbolic s) && negb (is_symbolic sci) then
    match native (data_ s) (data_ sci) with
    | Ok d => ret (SymInt_int64 d)
    | Fail e => throw e
    end
  else
    (* auto res = normalize_symints of *this and sci; *)
    res <- static (normalize_symints s sci) ;;
    (* return SymInt::toSymInt(res[0]->op(res[1])); *)
    finally
      (r <- static (binary op (fst res) (snd res)) ;; static (toSymInt r))
      (destroy_res res).

Definition operator_plus : SymInt -> method SymInt := arith native_add op_add.
Definition operator_minus : SymInt -> method SymInt := arith native_sub op_sub.
Definition operator_times : SymInt -> method SymInt := arith native_mul op_mul.
Definition operator_div : SymInt -> method SymInt := arith native_div op_floordiv.
Definition operator_rem : SymInt -> method SymInt := arith native_rem op_mod.

(** The shape shared by [operator==], [operator<], [operator<=],
    [operator>] and [operator>=]. *)
Definition compare (native : Z -> Z -> bool) (op : binop) (sci : SymInt)
    : method bool :=
  s <- this ;;
  if negb (is_symbolic s) && negb (is_symbolic sci) then
    ret (native (data_ s) (data_ sci))
  else
    res <- static (normalize_symints s sci) ;;
    (* return res[0]->op(res[1])->bool_(); the handle in between is a
       temporary *)
    finally
      (t <- static (binary op (fst res) (snd res)) ;;
       finally (static (bool_ t)) (cleanup (on_mem (reset_ t))))
      (destroy_res res).

Definition operator_eq : SymInt -> method bool := compare Z.eqb op_eq.
Definition operator_lt : SymInt -> method bool := compare Z.ltb op_lt.
Definition operator_le : SymInt -> method bool := compare Z.leb op_le.
Definition operator_gt : SymInt -> method bool := compare Z.gtb op_gt.
Definition operator_ge : SymInt -> method bool := compare Z.geb op_ge.

(** A call [f(x)] of a member function on [*this] whose parameter is a
    [SymInt] by value: the parameter object is made first and dies when the
    call ends. *)
Definition by_value {A} (arg : St (world G) SymInt) (f : SymInt -> method A)
    : method A :=
  p <- static arg ;;
  finally (f p) (cleanup (SymInt_destroy p)).

(** [bool SymInt::operator!=(SymInt sci) const { return ! ( *this == sci ); }] *)
Definition operator_ne (sci : SymInt) : method bool :=
  r <- by_value (SymInt_copy sci) operator_eq ;;
  ret (negb r).

(** [void SymInt::operator*=(SymInt sci) { *this = *this * sci; }]
    Modelled from the spec for the move assignment (class declaration, not
    among the sources): the value held before is destroyed and replaced by
    the product. *)
Definition operator_times_assign (sci : SymInt) : method unit :=
  r <- by_value (SymInt_copy sci) operator_times ;;
  modify (fun s => (r, SymInt_destroy (fst s) (snd s))).

(** *** The overloads with an [int64_t] on the right *)

Definition operator_lt_int64 (sci : Z) : method bool :=
  by_value (ret (SymInt_int64 sci)) operator_lt.
Definition operator_le_int64 (sci : Z) : method bool :=
  by_value (ret (SymInt_int64 sci)) operator_le.
Definition operator_gt_int64 (sci : Z) : method bool :=
  by_value (ret (SymInt_int64 sci)) operator_gt.
Definition operator_ge_int64 (sci : Z) : method bool :=
  by_value (ret (SymInt_int64 sci)) operator_ge.
Definition operator_eq_int64 (sci : Z) : method bool :=
  by_value (ret (SymInt_int64 sci)) operator_eq.
Definition operator_ne_int64 (sci : Z) : method bool :=
  by_value (ret (SymInt_int64 sci)) operator_ne.
Definition operator_times_int64 (sci : Z) : method SymInt :=
  by_value (ret (SymInt_int64 sci)) operator_times.

End SymIntCpp.

Arguments this {G}.
Arguments cleanup {G S} f s.

(** ** A node implementation to run the code on

    Each node holds an integer when its value is known and nothing when it
    is an unresolved quantity.  Nodes are allocated at increasing addresses,
    16 bytes apart; a new node starts with one owner, the handle returned. *)

Record toy_graph : Type := ToyGraph {
  next_addr : Z;
  value_of : gmap Z (option Z)
}.

Definition toy_alloc (v : option Z) (h : heap toy_graph) : outcome SymIntNode * heap toy_graph :=
  let p := next_addr (graph h) in
  (Ok p, Heap (<[p := 1%nat]> (refcount h))
              (ToyGraph (p + 16) (<[p := v]> (value_of (graph h))))).

Definition toy_value (p : Z) (h : heap toy_graph) : option Z :=
  match value_of (graph h) !! p with Some v => v | None => None end.

Definition Z_of_bool (c : bool) : Z := if c then 1 else 0.

Definition toy_binop (op : binop) (x y : Z) : Z :=
  match op with
  | op_add => x + y
  | op_sub => x - y
  | op_mul => x * y
  | op_floordiv => x / y
  | op_mod => x mod y
  | op_eq => Z_of_bool (x =? y)
  | op_lt => Z_of_bool (x <? y)
  | op_le => Z_of_bool (x <=? y)
  | op_gt => Z_of_bool (x >? y)
  | op_ge => Z_of_bool (x >=? y)
  end.

#[global] Instance toy_impl : SymIntNodeImpl toy_graph := {
  node_wrap _ num h := toy_alloc (Some num) h;
  node_binary op self other h :=
    match toy_value self h, toy_value other h with
    | Some x, Some y => toy_alloc (Some (toy_binop op x y)) h
    | _, _ => toy_alloc None h
    end;
  node_bool_ self h :=
    match toy_value self h with
    | Some v => (Ok (negb (v =? 0)), h)
    | None => (Fail (NodeFailure "" 0), h)
    end;
  node_guard_int self file line h :=
    match toy_value self h with
    | Some v => (Ok v, h)
    | None => (Fail (NodeFailure file line), h)
    end
}.

(** A tag to run the code on: the two top bits of the word, [0b10] marking a
    node. *)
Definition MASK_top2 : Z := Z.lor (Z.shiftl 1 63) (Z.shiftl 1 62).
Definition IS_SYM_top : Z := Z.shiftl 1 63.

(** A world with one live node at address 16, of unknown value, owned once. *)
Definition toy_world : world toy_graph :=
  World (Heap {[ 16 := 1%nat ]} (ToyGraph 32 {[ 16 := None ]})) [].

(** A world with one live node at address 16, of value 5, owned once. *)
Definition toy_world5 : world toy_graph :=
  World (Heap {[ 16 := 1%nat ]} (ToyGraph 32 {[ 16 := Some 5 ]})) [].

(** The symbolic word of the node at address 16. *)
Definition sym16 : SymInt := MkSymInt (to_i64 (Z.lor 16 IS_SYM_top)).

(** ** Relations between the state before and after a call

    [preserves R m]: whatever [m] does, returning or raising, the state it
    ends in is related by [R] to the state it started from. *)
Definition preserves {S : Type} (R : S -> S -> Prop) {A : Type} (m : St S A) : Prop :=
  forall s, R s (snd (m s)).

(** [keeps proj]: the part [proj] of the objects is what it was. *)
Definition keeps {G S T} (proj : S -> T) (s s' : S * world G) : Prop :=
  proj (fst s') = proj (fst s).

(** [logs P]: the log has only grown, and by calls that satisfy [P]. *)
Definition logs {G} (P : call -> Prop) (w w' : world G) : Prop :=
  exists new, calls w' = new ++ calls w /\ Forall (fun c => P (fst c)) new.

Definition logs_in {G S} (P : call -> Prop) (s s' : S * world G) : Prop :=
  logs P (snd s) (snd s').

(** The virtual calls that [operator==] can make. *)
Definition eq_path_call (c : call) : Prop :=
  match c with
  | CallWrap _ _ | CallBinary op_eq _ _ | CallBool _ => True
  | _ => False
  end.

(** The number of owners the table records for a node, none for a node it
    does not hold. *)
Definition count {G} (h : heap G) (p : Z) : nat := default 0%nat (refcount h !! p).

(** The virtual calls on the path of a binary operator that delegates to the
    node method [op]. *)
Definition op_path_call (op : binop) (c : call) : Prop :=
  match c with
  | CallWrap _ _ => True
  | CallBinary op' _ _ => op' = op
  | CallBool _ | CallGuardInt _ _ _ => False
  end.

(** The same for a comparison, which also reads the answer with [bool_]. *)
Definition compare_path_call (op : binop) (c : call) : Prop :=
  match c with
  | CallWrap _ _ | CallBool _ => True
  | CallBinary op' _ _ => op' = op
  | CallGuardInt _ _ _ => False
  end.

(** The one virtual call of [guard_int(file, line)]. *)
Definition guard_path_call (file : string) (line : Z) (c : call) : Prop :=
  match c with
  | CallGuardInt _ f l => f = file /\ l = line
  | _ => False
  end.

(** * Properties *)

(** ** The casts *)

Lemma to_i64_range (x : Z) : in_i64 (to_i64 x).
Proof.
  unfold in_i64, to_i64.
  pose proof (Z.mod_pos_bound (x + 2 ^ 63) (2 ^ 64) ltac:(lia)). lia.
Qed.

Lemma to_i64_wraps (x : Z) : (to_i64 x - x) mod 2 ^ 64 = 0.
Proof.
  unfold to_i64.
  rewrite (Z.mod_eq (x + 2 ^ 63) (2 ^ 64)) by lia.
  replace (x + 2 ^ 63 - 2 ^ 64 * ((x + 2 ^ 63) / 2 ^ 64) - 2 ^ 63 - x)
    with (- ((x + 2 ^ 63) / 2 ^ 64) * 2 ^ 64) by ring.
  apply Z.mod_mul. lia.
Qed.


(** ** The reference counts *)

Section Counts.
Context {G : Type}.
Implicit Types (p : SymIntNode) (h : heap G).

Lemma retain_null h : retain_ null h = h.
Proof. reflexivity. Qed.

Lemma reset_null h : reset_ null h = h.
Proof. reflexivity. Qed.

Lemma retain_graph p h : graph (retain_ p h) = graph h.
Proof. unfold retain_. destruct (is_null p); reflexivity. Qed.

Lemma reset_graph p h : graph (reset_ p h) = graph h.
Proof.
  unfold reset_. destruct (is_null p); [reflexivity|].
  destruct (refcount h !! p) as [[|[|n]]|]; reflexivity.
Qed.

Lemma is_null_false p : p <> 0 -> is_null p = false.
Proof. intros Hp. unfold is_null. apply Z.eqb_neq, Hp. Qed.

(** A new handle adds exactly one to the count of a node. *)
Lemma retain_count p h :
  p <> 0 ->
  refcount (retain_ p h) = <[p := S (default 0%nat (refcount h !! p))]> (refcount h).
Proof. intros Hp. unfold retain_. rewrite is_null_false by exact Hp. reflexivity. Qed.

(** A handle taken and destroyed again leaves the counts as they were,
    unless the table held a node with no owner. *)
Lemma reset_retain p h :
  refcount h !! p <> Some 0%nat ->
  reset_ p (retain_ p h) = h.
Proof.
  intros Hlive. unfold reset_, retain_.
  destruct (is_null p); [reflexivity|].
  cbn [refcount graph]. rewrite lookup_insert_eq.
  destruct h as [rc g]; cbn [refcount graph] in *.
  destruct (rc !! p) as [[|n]|] eqn:Hrc; cbn [default id].
  - congruence.
  - rewrite insert_insert_eq, insert_id by exact Hrc. reflexivity.
  - rewrite delete_insert_eq, delete_id by exact Hrc. reflexivity.
Qed.

End Counts.

(** ** What a computation leaves alone *)

Section Preserve.
Context {S : Type} (R : S -> S -> Prop).
Hypothesis R_refl : forall s, R s s.
Hypothesis R_trans : forall s1 s2 s3, R s1 s2 -> R s2 s3 -> R s1 s3.

Lemma preserves_ret {A} (x : A) : preserves R (ret x).
Proof using R_refl. intros s. apply R_refl. Qed.

Lemma preserves_throw {A} (e : failure) : preserves R (@throw S A e).
Proof using R_refl. intros s. apply R_refl. Qed.

Lemma preserves_get : preserves R get.
Proof using R_refl. intros s. apply R_refl. Qed.

Lemma preserves_modify (f : S -> S) : (forall s, R s (f s)) -> preserves R (modify f).
Proof. intros Hf s. apply Hf. Qed.

Lemma preserves_bind {A B} (m : St S A) (k : A -> St S B) :
  preserves R m -> (forall x, preserves R (k x)) -> preserves R (bind m k).
Proof using R_trans.
  intros Hm Hk s. unfold bind. specialize (Hm s).
  destruct (m s) as [[x|e] s1]; cbn [snd] in *.
  - eapply R_trans; [exact Hm | apply Hk].
  - exact Hm.
Qed.

Lemma preserves_finally {A} (m : St S A) (c : S -> S) :
  preserves R m -> (forall s, R s (c s)) -> preserves R (finally m c).
Proof using R_trans.
  intros Hm Hc s. unfold finally. specialize (Hm s).
  destruct (m s) as [r s1]; cbn [snd] in *.
  eapply R_trans; [exact Hm | apply Hc].
Qed.

Lemma preserves_if {A} (c : bool) (m1 m2 : St S A) :
  preserves R m1 -> preserves R m2 -> preserves R (if c then m1 else m2).
Proof. destruct c; auto. Qed.

End Preserve.

Lemma keeps_refl {G S T} (proj : S -> T) (s : S * world G) : keeps proj s s.
Proof. reflexivity. Qed.

Lemma keeps_trans {G S T} (proj : S -> T) (s1 s2 s3 : S * world G) :
  keeps proj s1 s2 -> keeps proj s2 s3 -> keeps proj s1 s3.
Proof. unfold keeps. congruence. Qed.

Lemma logs_refl {G} P (w : world G) : logs P w w.
Proof. exists []. split; [reflexivity | constructor]. Qed.

Lemma logs_trans {G} P (w1 w2 w3 : world G) :
  logs P w1 w2 -> logs P w2 w3 -> logs P w1 w3.
Proof.
  intros (n1 & E1 & F1) (n2 & E2 & F2). exists (n2 ++ n1). split.
  - rewrite E2, E1, app_assoc. reflexivity.
  - apply Forall_app. split; assumption.
Qed.

Lemma logs_in_refl {G S} P (s : S * world G) : logs_in P s s.
Proof. apply logs_refl. Qed.

Lemma logs_in_trans {G S} P (s1 s2 s3 : S * world G) :
  logs_in P s1 s2 -> logs_in P s2 s3 -> logs_in P s1 s3.
Proof. apply logs_trans. Qed.

Lemma logs_on_mem {G} P (f : heap G -> heap G) (w : world G) : logs P w (on_mem f w).
Proof. exists []. split; [reflexivity | constructor]. Qed.

Lemma logs_dispatch {G A} (P : call -> Prop) c (f : A -> reply) self
    (m : heap G -> outcome A * heap G) :
  P c -> preserves (logs P) (dispatch c f self m).
Proof.
  intros Hc w. unfold dispatch. destruct (is_null self); [apply logs_refl|].
  destruct (m (mem w)) as [r h']. cbn [snd].
  exists [(c, reply_of f r)]. split; [reflexivity|].
  constructor; [exact Hc | constructor].
Qed.

Create HintDb frame discriminated.

#[global] Hint Resolve keeps_refl keeps_trans logs_refl logs_trans
  logs_in_refl logs_in_trans logs_on_mem : frame.
#[global] Hint Resolve preserves_ret preserves_throw preserves_get preserves_modify
  preserves_bind preserves_finally preserves_if : frame.

Ltac frame_rel :=
  first [ apply keeps_refl | apply logs_in_refl | apply logs_refl
        | apply keeps_trans | apply logs_in_trans | apply logs_trans ].

(** One structural step of a [preserves] goal. *)
Ltac frame_step :=
  lazymatch goal with
  | |- preserves _ (ret _) => apply preserves_ret; frame_rel
  | |- preserves _ (throw _) => apply preserves_throw; frame_rel
  | |- preserves _ get => apply preserves_get; frame_rel
  | |- preserves _ (bind _ _) =>
      apply preserves_bind; [frame_rel | | intros ?]
  | |- preserves _ (finally _ _) =>
      apply preserves_finally; [frame_rel | | intros ?]
  | |- preserves _ (if _ then _ else _) => apply preserves_if
  | |- preserves _ (match ?x with Ok _ => _ | Fail _ => _ end) => destruct x
  end.

Section Frames.
Variable C10_MOBILE : bool.
Variables MASK IS_SYM : Z.
Context {G : Type} {impl : SymIntNodeImpl G}.

(** *** The objects *)

Lemma static_keeps {S T A} (proj : S -> T) (m : St (world G) A) :
  preserves (keeps proj) (static m).
Proof. intros s. unfold static. destruct (m (snd s)). reflexivity. Qed.

Lemma cleanup_keeps {S T} (proj : S -> T) (f : world G -> world G) (s : S * world G) :
  keeps proj s (cleanup f s).
Proof. reflexivity. Qed.

Lemma zoom_keeps {S T U A} (proj : S -> U) (rd : S -> T) (wr : T -> S -> S)
    (m : St (T * world G) A) :
  preserves (keeps (G := G) id) m ->
  (forall f, proj (wr (rd f) f) = proj f) ->
  preserves (keeps proj) (zoom rd wr m).
Proof.
  intros Hm Hlens s. unfold zoom. specialize (Hm (rd (fst s), snd s)).
  destruct (m (rd (fst s), snd s)) as [r [t' w']].
  unfold keeps, id in *. cbn [fst snd] in *. subst t'. apply Hlens.
Qed.

Lemma this_keeps {T} (proj : SymInt -> T) : preserves (keeps (G := G) proj) this.
Proof. intros s. reflexivity. Qed.

(** [toSymIntNodeImpl] is [const]: it does not write its receiver. *)
Lemma toSymIntNodeImpl_keeps :
  preserves (keeps (G := G) (S := SymInt) id) (toSymIntNodeImpl C10_MOBILE MASK IS_SYM).
Proof.
  unfold toSymIntNodeImpl. repeat frame_step; try apply static_keeps.
  apply this_keeps.
Qed.

(** No statement of [normalize_symints] writes a parameter. *)
Lemma normalize_symints_body_keeps :
  preserves (keeps (G := G) (fun f => (a_ f, b_ f)))
    (normalize_symints_body C10_MOBILE MASK IS_SYM).
Proof.
  unfold normalize_symints_body, assign_a, assign_b.
  repeat frame_step; try apply static_keeps;
    try (apply preserves_modify; intros ?; reflexivity).
  - apply zoom_keeps; [apply toSymIntNodeImpl_keeps | reflexivity].
  - apply zoom_keeps; [apply toSymIntNodeImpl_keeps | reflexivity].
Qed.

Lemma arith_keeps native op sci :
  preserves (keeps (G := G) (S := SymInt) id) (arith C10_MOBILE MASK IS_SYM native op sci).
Proof.
  unfold arith. frame_step; [apply this_keeps|].
  repeat frame_step; try apply static_keeps; apply cleanup_keeps.
Qed.

Lemma compare_keeps native op sci :
  preserves (keeps (G := G) (S := SymInt) id) (compare C10_MOBILE MASK IS_SYM native op sci).
Proof.
  unfold compare. frame_step; [apply this_keeps|].
  repeat frame_step; try apply static_keeps; apply cleanup_keeps.
Qed.

Lemma by_value_keeps {A} arg (f : SymInt -> method A) :
  (forall p, preserves (keeps (G := G) (S := SymInt) id) (f p)) ->
  preserves (keeps (G := G) (S := SymInt) id) (by_value C10_MOBILE MASK IS_SYM arg f).
Proof.
  intros Hf. unfold by_value. repeat frame_step.
  - apply static_keeps.
  - apply Hf.
  - apply cleanup_keeps.
Qed.

Lemma operator_ne_keeps sci :
  preserves (keeps (G := G) (S := SymInt) id) (operator_ne C10_MOBILE MASK IS_SYM sci).
Proof.
  unfold operator_ne. repeat frame_step.
  apply by_value_keeps. intros p. apply compare_keeps.
Qed.

Lemma guard_int_keeps file line :
  preserves (keeps (G := G) (S := SymInt) id) (guard_int C10_MOBILE MASK IS_SYM file line).
Proof.
  unfold guard_int. frame_step; [apply this_keeps|].
  repeat frame_step; try apply static_keeps.
  - apply toSymIntNodeImpl_keeps.
  - apply cleanup_keeps.
Qed.

End Frames.

Section Logs.
Variable C10_MOBILE : bool.
Variables MASK IS_SYM : Z.
Context {G : Type} {impl : SymIntNodeImpl G}.
Variable P : call -> Prop.

Lemma static_logs {S A} (m : St (world G) A) :
  preserves (logs P) m -> preserves (logs_in (S := S) P) (static m).
Proof.
  intros Hm s. unfold static, logs_in. specialize (Hm (snd s)).
  destruct (m (snd s)). exact Hm.
Qed.

Lemma zoom_logs {S T A} (rd : S -> T) (wr : T -> S -> S) (m : St (T * world G) A) :
  preserves (logs_in P) m -> preserves (logs_in P) (zoom rd wr m).
Proof.
  intros Hm s. unfold zoom, logs_in. specialize (Hm (rd (fst s), snd s)).
  destruct (m (rd (fst s), snd s)) as [r [t' w']]. exact Hm.
Qed.

Lemma cleanup_logs {S} (f : world G -> world G) (s : S * world G) :
  (forall w, logs P w (f w)) -> logs_in P s (cleanup f s).
Proof. intros Hf. apply Hf. Qed.

Lemma on_mem_logs (f : heap G -> heap G) : preserves (logs P) (modify (on_mem f)).
Proof. intros w. apply logs_on_mem. Qed.

Lemma SymInt_destroy_logs s (w : world G) :
  logs P w (SymInt_destroy C10_MOBILE MASK IS_SYM s w).
Proof.
  unfold SymInt_destroy. destruct (is_symbolic _ _ _ s); auto with frame.
Qed.

Lemma SymInt_copy_logs s :
  preserves (logs (G := G) P) (SymInt_copy C10_MOBILE MASK IS_SYM s).
Proof.
  intros w. unfold SymInt_copy. destruct (is_symbolic _ _ _ s); cbn [snd]; auto with frame.
Qed.

Lemma toSymInt_logs h :
  preserves (logs (G := G) P) (toSymInt C10_MOBILE MASK IS_SYM h).
Proof.
  unfold toSymInt. repeat frame_step. apply logs_on_mem.
Qed.

Lemma toSymIntNodeImpl_logs :
  preserves (logs_in (G := G) P) (toSymIntNodeImpl C10_MOBILE MASK IS_SYM).
Proof.
  unfold toSymIntNodeImpl. repeat frame_step.
  - intros s. apply logs_refl.
  - apply static_logs, on_mem_logs.
Qed.

Lemma toSymInt_discarded_logs h :
  preserves (logs (G := G) P) (toSymInt_discarded C10_MOBILE MASK IS_SYM h).
Proof.
  unfold toSymInt_discarded. repeat frame_step.
  - apply on_mem_logs.
  - apply toSymInt_logs.
  - apply preserves_modify. intros w. apply SymInt_destroy_logs.
Qed.

Hypothesis P_wrap : forall self num, P (CallWrap self num).

Lemma wrap_logs common num : preserves (logs (G := G) P) (wrap common num).
Proof. apply logs_dispatch, P_wrap. Qed.

Lemma normalize_symints_body_logs :
  preserves (logs_in (G := G) P) (normalize_symints_body C10_MOBILE MASK IS_SYM).
Proof using P_wrap.
  unfold normalize_symints_body, assign_a, assign_b.
  repeat frame_step;
    try (apply static_logs;
         first [apply on_mem_logs | apply wrap_logs | apply toSymInt_discarded_logs]);
    try (apply preserves_modify; intros ?; apply logs_on_mem);
    apply zoom_logs, toSymIntNodeImpl_logs.
Qed.

Lemma normalize_symints_logs x y :
  preserves (logs (G := G) P) (normalize_symints C10_MOBILE MASK IS_SYM x y).
Proof using P_wrap.
  intros w. unfold normalize_symints, normalize_symints_run.
  pose proof (SymInt_copy_logs x w) as H1.
  destruct (SymInt_copy _ _ _ x w) as [[xa|e] w1]; cbn [snd] in *.
  2:{ cbn [snd a_ b_ a b]. repeat (eapply logs_trans; [|apply SymInt_destroy_logs]).
      repeat (eapply logs_trans; [|apply logs_on_mem]). exact H1. }
  pose proof (SymInt_copy_logs y w1) as H2.
  destruct (SymInt_copy _ _ _ y w1) as [[ya|e] w2]; cbn [snd] in *.
  2:{ cbn [snd a_ b_ a b]. repeat (eapply logs_trans; [|apply SymInt_destroy_logs]).
      repeat (eapply logs_trans; [|apply logs_on_mem]).
      eapply logs_trans; eassumption. }
  pose proof (normalize_symints_body_logs (Frame xa ya null null, w2)) as H3.
  destruct (normalize_symints_body _ _ _ _) as [r [f w3]].
  unfold logs_in in H3. cbn [snd] in *.
  repeat (eapply logs_trans; [|apply SymInt_destroy_logs]).
  repeat (eapply logs_trans; [|apply logs_on_mem]).
  eapply logs_trans; [|exact H3]. eapply logs_trans; eassumption.
Qed.

Lemma destroy_res_logs {S} res (s : S * world G) : logs_in P s (destroy_res res s).
Proof.
  unfold destroy_res. apply cleanup_logs. intros w.
  eapply logs_trans; apply logs_on_mem.
Qed.

Lemma compare_logs native op sci :
  (forall self other, P (CallBinary op self other)) ->
  (forall self, P (CallBool self)) ->
  preserves (logs_in (G := G) P) (compare C10_MOBILE MASK IS_SYM native op sci).
Proof using P_wrap.
  intros Hop Hbool. unfold compare, binary, bool_.
  repeat frame_step.
  - intros s. apply logs_refl.
  - apply static_logs, normalize_symints_logs.
  - apply static_logs, logs_dispatch, Hop.
  - apply static_logs, logs_dispatch, Hbool.
  - apply cleanup_logs. intros w. apply logs_on_mem.
  - apply destroy_res_logs.
Qed.

Lemma by_value_logs {A} arg (f : SymInt -> method A) :
  preserves (logs P) arg ->
  (forall p, preserves (logs_in (G := G) P) (f p)) ->
  preserves (logs_in (G := G) P) (by_value C10_MOBILE MASK IS_SYM arg f).
Proof.
  intros Harg Hf. unfold by_value. repeat frame_step.
  - apply static_logs, Harg.
  - apply Hf.
  - apply cleanup_logs. intros w. apply SymInt_destroy_logs.
Qed.

End Logs.

(** ** The fast path *)

Section FastPath.
Variable C10_MOBILE : bool.
Variables MASK IS_SYM : Z.
Context {G : Type} {impl : SymIntNodeImpl G}.
Implicit Types (x y v : SymInt) (w : world G).

Lemma arith_concrete native op x y w :
  is_symbolic C10_MOBILE MASK IS_SYM x = false ->
  is_symbolic C10_MOBILE MASK IS_SYM y = false ->
  arith C10_MOBILE MASK IS_SYM native op y (x, w) =
    match native (data_ x) (data_ y) with
    | Ok d => (Ok (MkSymInt d), (x, w))
    | Fail e => (Fail e, (x, w))
    end.
Proof.
  intros Hx Hy. unfold arith, bind, this. cbn [fst snd].
  rewrite Hx, Hy. cbn [negb andb].
  destruct (native (data_ x) (data_ y)); reflexivity.
Qed.

Lemma compare_concrete native op x y w :
  is_symbolic C10_MOBILE MASK IS_SYM x = false ->
  is_symbolic C10_MOBILE MASK IS_SYM y = false ->
  compare C10_MOBILE MASK IS_SYM native op y (x, w) =
    (Ok (native (data_ x) (data_ y)), (x, w)).
Proof.
  intros Hx Hy. unfold compare, bind, this. cbn [fst snd].
  rewrite Hx, Hy. reflexivity.
Qed.

(** A parameter built from a concrete word costs nothing to make and
    nothing to destroy. *)
Lemma by_value_concrete {A} (f : SymInt -> method A) y (s : SymInt * world G) :
  is_symbolic C10_MOBILE MASK IS_SYM y = false ->
  by_value C10_MOBILE MASK IS_SYM (ret y) f s = f y s /\
  by_value C10_MOBILE MASK IS_SYM (SymInt_copy C10_MOBILE MASK IS_SYM y) f s = f y s.
Proof.
  intros Hy. unfold by_value, bind, static, finally, cleanup, SymInt_copy, SymInt_destroy, ret.
  rewrite Hy. cbn [fst snd]. destruct s as [t w]. cbn [fst snd].
  destruct (f y (t, w)) as [r [t' w']]. cbn [fst snd]. rewrite Hy.
  split; reflexivity.
Qed.

(** The result and the receiver of a call do not depend on how the
    parameter object is disposed of. *)
Lemma by_value_ret {A} (f : SymInt -> method A) y (s : SymInt * world G) :
  by_value C10_MOBILE MASK IS_SYM (ret y) f s =
    (fst (f y s),
     (fst (snd (f y s)), SymInt_destroy C10_MOBILE MASK IS_SYM y (snd (snd (f y s))))).
Proof.
  unfold by_value, bind, static, finally, cleanup, ret. cbn [fst snd].
  destruct s as [t w]. cbn [fst snd].
  destruct (f y (t, w)) as [r [t' w']]. reflexivity.
Qed.

End FastPath.

(** ** The operators on concrete operands *)



(** C1.  The fast paths of [operator/] and [operator%] apply the built-in
    operators: on -7 and 2 they return -3 and -1, where the floor convention
    of the node methods [floordiv] and [mod] gives -4 and 1. *)
Theorem concrete_division_truncates {G : Type} {impl : SymIntNodeImpl G} (w : world G) :
  operator_div false MASK_top2 IS_SYM_top (MkSymInt 2) (MkSymInt (-7), w)
    = (Ok (MkSymInt (-3)), (MkSymInt (-7), w)) /\
  operator_rem false MASK_top2 IS_SYM_top (MkSymInt 2) (MkSymInt (-7), w)
    = (Ok (MkSymInt (-1)), (MkSymInt (-7), w)) /\
  (-7) / 2 = -4 /\ (-7) mod 2 = 1.
Proof.
  unfold operator_div, operator_rem.
  rewrite !(arith_concrete false MASK_top2 IS_SYM_top _ _
              (MkSymInt (-7)) (MkSymInt 2) w eq_refl eq_refl).
  repeat split; reflexivity.
Qed.

(** ** The overloads with an [int64_t] *)

(** C9.  Each overload with an [int64_t] on the right returns what the
    two-value operator returns on the [SymInt] constructed from that
    integer, and leaves the receiver as that operator leaves it; when the
    constructed value is concrete the two calls are the same computation,
    the state they end in included. *)
Theorem int64_overloads_are_sugar
    (C10_MOBILE : bool) (MASK IS_SYM : Z) {G : Type} {impl : SymIntNodeImpl G}
    (v : SymInt) (i : Z) (w : world G) :
  let same {A} (sugar full : method A) :=
    fst (sugar (v, w)) = fst (full (v, w)) /\
    fst (snd (sugar (v, w))) = fst (snd (full (v, w))) /\
    (is_symbolic C10_MOBILE MASK IS_SYM (SymInt_int64 i) = false ->
     sugar (v, w) = full (v, w)) in
  same (operator_lt_int64 C10_MOBILE MASK IS_SYM i)
       (operator_lt C10_MOBILE MASK IS_SYM (SymInt_int64 i)) /\
  same (operator_le_int64 C10_MOBILE MASK IS_SYM i)
       (operator_le C10_MOBILE MASK IS_SYM (SymInt_int64 i)) /\
  same (operator_gt_int64 C10_MOBILE MASK IS_SYM i)
       (operator_gt C10_MOBILE MASK IS_SYM (SymInt_int64 i)) /\
  same (operator_ge_int64 C10_MOBILE MASK IS_SYM i)
       (operator_ge C10_MOBILE MASK IS_SYM (SymInt_int64 i)) /\
  same (operator_eq_int64 C10_MOBILE MASK IS_SYM i)
       (operator_eq C10_MOBILE MASK IS_SYM (SymInt_int64 i)) /\
  same (operator_ne_int64 C10_MOBILE MASK IS_SYM i)
       (operator_ne C10_MOBILE MASK IS_SYM (SymInt_int64 i)) /\
  same (operator_times_int64 C10_MOBILE MASK IS_SYM i)
       (operator_times C10_MOBILE MASK IS_SYM (SymInt_int64 i)).
Proof.
  assert (Hsame : forall A (f : SymInt -> method A),
    fst (by_value C10_MOBILE MASK IS_SYM (ret (SymInt_int64 i)) f (v, w))
      = fst (f (SymInt_int64 i) (v, w)) /\
    fst (snd (by_value C10_MOBILE MASK IS_SYM (ret (SymInt_int64 i)) f (v, w)))
      = fst (snd (f (SymInt_int64 i) (v, w))) /\
    (is_symbolic C10_MOBILE MASK IS_SYM (SymInt_int64 i) = false ->
     by_value C10_MOBILE MASK IS_SYM (ret (SymInt_int64 i)) f (v, w)
       = f (SymInt_int64 i) (v, w))).
  { intros A f. rewrite by_value_ret. cbn [fst snd]. repeat split.
    intros Hi. unfold SymInt_destroy. rewrite Hi.
    destruct (f (SymInt_int64 i) (v, w)) as [r [t w']]. reflexivity. }
  cbv zeta.
  unfold operator_lt_int64, operator_le_int64, operator_gt_int64, operator_ge_int64,
    operator_eq_int64, operator_ne_int64, operator_times_int64.
  repeat split; solve [apply Hsame | intros Hi; apply Hsame, Hi].
Qed.

(** The node at 16 holds 5: [v < 7] is [v < SymInt(7)], one [wrap], one [lt]
    and one [bool_] later. *)
Lemma int64_overloads_are_sugar_witness :
  is_symbolic false MASK_top2 IS_SYM_top (SymInt_int64 7) = false /\
  operator_lt_int64 false MASK_top2 IS_SYM_top 7 (sym16, toy_world5)
    = operator_lt false MASK_top2 IS_SYM_top (SymInt_int64 7) (sym16, toy_world5) /\
  fst (operator_lt_int64 false MASK_top2 IS_SYM_top 7 (sym16, toy_world5)) = Ok true.
Proof.
  split; [reflexivity|]. split.
  - exact (proj2 (proj2 (proj1 (int64_overloads_are_sugar false MASK_top2 IS_SYM_top
                                 sym16 7 toy_world5))) eq_refl).
  - vm_compute. reflexivity.
Defined.

(** ** The mobile build *)

(** C8.  On the mobile build [toSymInt], [toSymIntNodeImpl] and
    [normalize_symints] fail with the internal assertion and its fixed
    message, whatever they are given; none of them returns, and none of them
    makes a virtual call. *)
Theorem mobile_stubs_always_assert
    (MASK IS_SYM : Z) {G : Type} {impl : SymIntNodeImpl G}
    (sin_sp : SymIntNode) (v x y : SymInt) (w : world G) :
  let failed {A S} (r : outcome A * S) :=
    fst r = Fail (InternalAssertFailed "SymInts aren't available on mobile") in
  (failed (toSymInt true MASK IS_SYM sin_sp w) /\
   calls (snd (toSymInt true MASK IS_SYM sin_sp w)) = calls w) /\
  (failed (toSymIntNodeImpl true MASK IS_SYM (v, w)) /\
   snd (toSymIntNodeImpl true MASK IS_SYM (v, w)) = (v, w)) /\
  (failed (normalize_symints true MASK IS_SYM x y w) /\
   snd (normalize_symints true MASK IS_SYM x y w) = w).
Proof.
  cbv zeta. destruct w as [h log]. repeat split.
Qed.

(** ** Handles taken from a word *)

Lemma is_symbolic_not_mobile C10_MOBILE MASK IS_SYM v :
  is_symbolic C10_MOBILE MASK IS_SYM v = true -> C10_MOBILE = false.
Proof. unfold is_symbolic. destruct C10_MOBILE; [discriminate | reflexivity]. Qed.

Lemma toSymIntNodeImpl_symbolic MASK IS_SYM {G : Type} (v : SymInt) (w : world G) :
  is_symbolic false MASK IS_SYM v = true ->
  toSymIntNodeImpl false MASK IS_SYM (v, w)
    = (Ok (toSymIntNodeImplUnowned MASK v),
       (v, on_mem (retain_ (toSymIntNodeImplUnowned MASK v)) w)).
Proof.
  intros Hv. unfold toSymIntNodeImpl, bind, this. cbn [fst snd].
  rewrite Hv. reflexivity.
Qed.

(** C7.  [toSymIntNodeImpl] on a concrete value fails the [TORCH_CHECK] and
    does nothing else.  On a symbolic value whose node is live it returns a
    handle on that node, the count of the node is one more than before,
    nothing else has changed, and the word, which is untouched, converts
    again in the same way. *)
Theorem toSymIntNodeImpl_contract
    (MASK IS_SYM : Z) {G : Type} (v : SymInt) (w : world G) :
  let p := toSymIntNodeImplUnowned MASK v in
  (is_symbolic false MASK IS_SYM v = false ->
   toSymIntNodeImpl false MASK IS_SYM (v, w) = (Fail CheckFailed, (v, w))) /\
  (is_symbolic false MASK IS_SYM v = true -> p <> 0 ->
   forall n : nat, refcount (mem w) !! p = Some n ->
   exists w',
     toSymIntNodeImpl false MASK IS_SYM (v, w) = (Ok p, (v, w')) /\
     refcount (mem w') = <[p := S n]> (refcount (mem w)) /\
     graph (mem w') = graph (mem w) /\
     calls w' = calls w /\
     exists w'',
       toSymIntNodeImpl false MASK IS_SYM (v, w') = (Ok p, (v, w'')) /\
       refcount (mem w'') !! p = Some (S (S n))).
Proof.
  cbv zeta. split.
  - intros Hv. unfold toSymIntNodeImpl, bind, this. cbn [fst snd].
    rewrite Hv. reflexivity.
  - intros Hv Hp n Hn.
    exists (on_mem (retain_ (toSymIntNodeImplUnowned MASK v)) w).
    split; [apply toSymIntNodeImpl_symbolic; exact Hv|].
    cbn [on_mem mem calls]. rewrite retain_count, Hn by exact Hp. cbn [default].
    split; [reflexivity|]. split; [apply retain_graph|]. split; [reflexivity|].
    eexists. split; [apply toSymIntNodeImpl_symbolic; exact Hv|].
    cbn [on_mem mem]. rewrite !retain_count by exact Hp.
    rewrite lookup_insert_eq, Hn, lookup_insert_eq. reflexivity.
Qed.

(** The integer 3 is refused; the word of the node at 16 gives a handle on
    16, whose count goes from 1 to 2. *)
Lemma toSymIntNodeImpl_contract_witness :
  toSymIntNodeImpl false MASK_top2 IS_SYM_top (MkSymInt 3, toy_world)
    = (Fail CheckFailed, (MkSymInt 3, toy_world)) /\
  exists w',
    toSymIntNodeImpl false MASK_top2 IS_SYM_top (sym16, toy_world) = (Ok 16, (sym16, w')) /\
    refcount (mem w') = <[16 := 2%nat]> (refcount (mem toy_world)).
Proof.
  split.
  - exact (proj1 (toSymIntNodeImpl_contract MASK_top2 IS_SYM_top (MkSymInt 3) toy_world)
             eq_refl).
  - destruct (proj2 (toSymIntNodeImpl_contract MASK_top2 IS_SYM_top sym16 toy_world)
                eq_refl ltac:(discriminate) 1%nat eq_refl)
      as (w' & Hcall & Hcount & _).
    exists w'. split; [exact Hcall | exact Hcount].
Defined.

(** ** guard_int *)

Lemma reset_refcount_ext {G : Type} (p : SymIntNode) (h1 h2 : heap G) :
  refcount h1 = refcount h2 -> refcount (reset_ p h1) = refcount (reset_ p h2).
Proof.
  intros E. unfold reset_. destruct (is_null p); [exact E|].
  rewrite E. destruct (refcount h2 !! p) as [[|[|n]]|]; cbn [refcount]; rewrite ?E; reflexivity.
Qed.

Lemma guard_int_symbolic MASK IS_SYM {G : Type} {impl : SymIntNodeImpl G}
    (v : SymInt) (file : string) (line : Z) (w : world G) :
  is_symbolic false MASK IS_SYM v = true ->
  let p := toSymIntNodeImplUnowned MASK v in
  guard_int false MASK IS_SYM file line (v, w) =
    if is_null p then (Fail Undefined, (v, w))
    else (fst (node_guard_int p file line (retain_ p (mem w))),
          (v, World (reset_ p (snd (node_guard_int p file line (retain_ p (mem w)))))
                    ((CallGuardInt p file line,
                      reply_of RInt (fst (node_guard_int p file line (retain_ p (mem w)))))
                       :: calls w))).
Proof.
  intros Hv p. unfold guard_int, bind, this. cbn [fst snd].
  rewrite Hv. cbn [negb]. rewrite (toSymIntNodeImpl_symbolic _ _ v w Hv).
  fold p. unfold finally, static, dispatch, cleanup. cbn [fst snd mem calls on_mem].
  destruct (is_null p) eqn:Hp.
  - cbn [fst snd]. unfold is_null in Hp. apply Z.eqb_eq in Hp. rewrite Hp.
    destruct w; reflexivity.
  - destruct (node_guard_int p file line (retain_ p (mem w))) as [r h']. reflexivity.
Qed.

(** C6.  On a concrete value [guard_int] returns the stored word and ends in
    the state it started in: no virtual call is made.  On a symbolic value
    it makes exactly one virtual call, [guard_int] on the node of the word
    with the file and line it was given, and returns what that call
    returns, a failure included. *)
Theorem guard_int_delegation
    (C10_MOBILE : bool) (MASK IS_SYM : Z) {G : Type} {impl : SymIntNodeImpl G}
    (v : SymInt) (file : string) (line : Z) (w : world G) :
  (is_symbolic C10_MOBILE MASK IS_SYM v = false ->
   guard_int C10_MOBILE MASK IS_SYM file line (v, w) = (Ok (data_ v), (v, w))) /\
  (is_symbolic C10_MOBILE MASK IS_SYM v = true ->
   let p := toSymIntNodeImplUnowned MASK v in
   p <> 0 ->
   let r := fst (node_guard_int p file line (retain_ p (mem w))) in
   fst (guard_int C10_MOBILE MASK IS_SYM file line (v, w)) = r /\
   calls (snd (snd (guard_int C10_MOBILE MASK IS_SYM file line (v, w))))
     = (CallGuardInt p file line, reply_of RInt r) :: calls w).
Proof.
  split.
  - intros Hv. unfold guard_int, bind, this. cbn [fst snd]. rewrite Hv. reflexivity.
  - intros Hv p Hp r.
    pose proof (is_symbolic_not_mobile _ _ _ _ Hv) as ->.
    rewrite (guard_int_symbolic _ _ v file line w Hv). fold p.
    rewrite (is_null_false p Hp). split; reflexivity.
Qed.

(** 42 comes back without a call; the node at 16, which holds 5, is asked
    once, with the location. *)
Lemma guard_int_delegation_witness :
  guard_int false MASK_top2 IS_SYM_top "shape.cpp" 7 (MkSymInt 42, toy_world5)
    = (Ok 42, (MkSymInt 42, toy_world5)) /\
  fst (guard_int false MASK_top2 IS_SYM_top "shape.cpp" 7 (sym16, toy_world5)) = Ok 5 /\
  calls (snd (snd (guard_int false MASK_top2 IS_SYM_top "shape.cpp" 7 (sym16, toy_world5))))
    = [(CallGuardInt 16 "shape.cpp" 7, RInt 5)].
Proof.
  split.
  - exact (proj1 (guard_int_delegation false MASK_top2 IS_SYM_top
                    (MkSymInt 42) "shape.cpp" 7 toy_world5) eq_refl).
  - exact (proj2 (guard_int_delegation false MASK_top2 IS_SYM_top
                    sym16 "shape.cpp" 7 toy_world5) eq_refl ltac:(discriminate)).
Defined.

(** C10.  [guard_int] never writes its receiver.  When the node's own
    [guard_int] leaves the counts alone, the counts after the call are the
    counts before it: the handle taken on the symbolic path is given back,
    whether the node answers or raises. *)
Theorem guard_int_leaves_value_and_counts
    (C10_MOBILE : bool) (MASK IS_SYM : Z) {G : Type} {impl : SymIntNodeImpl G}
    (v : SymInt) (file : string) (line : Z) (w : world G) :
  fst (snd (guard_int C10_MOBILE MASK IS_SYM file line (v, w))) = v /\
  ((forall p f l h, refcount (snd (node_guard_int p f l h)) = refcount h) ->
   refcount (mem w) !! toSymIntNodeImplUnowned MASK v <> Some 0%nat ->
   refcount (mem (snd (snd (guard_int C10_MOBILE MASK IS_SYM file line (v, w)))))
     = refcount (mem w)).
Proof.
  split; [apply (guard_int_keeps C10_MOBILE MASK IS_SYM file line (v, w))|].
  intros Hnode Hlive.
  destruct (is_symbolic C10_MOBILE MASK IS_SYM v) eqn:Hv.
  - pose proof (is_symbolic_not_mobile _ _ _ _ Hv) as ->.
    rewrite (guard_int_symbolic _ _ v file line w Hv).
    destruct (is_null (toSymIntNodeImplUnowned MASK v)); [reflexivity|].
    cbn [fst snd mem].
    rewrite (reset_refcount_ext _ _ (retain_ (toSymIntNodeImplUnowned MASK v) (mem w)))
      by apply Hnode.
    rewrite reset_retain by exact Hlive. reflexivity.
  - unfold guard_int, bind, this. cbn [fst snd]. rewrite Hv. reflexivity.
Qed.

(** The node at 16 is owned once before and once after, whether it can
    answer (it holds 5) or not (its value is unknown). *)
Lemma guard_int_leaves_value_and_counts_witness :
  (fst (snd (guard_int false MASK_top2 IS_SYM_top "shape.cpp" 7 (sym16, toy_world5))) = sym16 /\
   refcount (mem (snd (snd (guard_int false MASK_top2 IS_SYM_top "shape.cpp" 7
                              (sym16, toy_world5)))))
     = refcount (mem toy_world5)) /\
  (fst (guard_int false MASK_top2 IS_SYM_top "shape.cpp" 7 (sym16, toy_world))
     = Fail (NodeFailure "shape.cpp" 7) /\
   refcount (mem (snd (snd (guard_int false MASK_top2 IS_SYM_top "shape.cpp" 7
                              (sym16, toy_world)))))
     = refcount (mem toy_world)).
Proof.
  assert (Htoy : forall p f l (h : heap toy_graph),
             refcount (snd (node_guard_int p f l h)) = refcount h).
  { intros p f l h. cbn. destruct (toy_value p h); reflexivity. }
  split.
  - destruct (guard_int_leaves_value_and_counts false MASK_top2 IS_SYM_top
                sym16 "shape.cpp" 7 toy_world5) as [Hv Hc].
    split; [exact Hv|]. apply Hc; [exact Htoy | discriminate].
  - split; [reflexivity|].
    apply (proj2 (guard_int_leaves_value_and_counts false MASK_top2 IS_SYM_top
                    sym16 "shape.cpp" 7 toy_world)); [exact Htoy | discriminate].
Defined.

(** ** Normalization *)

Lemma calls_on_mem {G : Type} (f : heap G -> heap G) (w : world G) :
  calls (on_mem f w) = calls w.
Proof. reflexivity. Qed.

Lemma calls_SymInt_destroy C10_MOBILE MASK IS_SYM {G : Type} s (w : world G) :
  calls (SymInt_destroy C10_MOBILE MASK IS_SYM s w) = calls w.
Proof. unfold SymInt_destroy. destruct (is_symbolic _ _ _ s); reflexivity. Qed.

Lemma is_null_null : is_null null = true.
Proof. reflexivity. Qed.

(** Run the body of [normalize_symints] up to the next test or call that
    depends on the operands. *)
Ltac norm_step :=
  cbv beta iota zeta delta
    [normalize_symints_body bind get ret modify zoom static throw finally
     assign_a assign_b set_a_ set_b_ fst snd a_ b_ a b as_int_unchecked
     toSymInt_discarded toSymInt wrap dispatch negb];
  rewrite ?is_null_null.

Ltac norm_log :=
  rewrite ?calls_SymInt_destroy, ?calls_on_mem; cbn [calls];
  rewrite ?calls_SymInt_destroy, ?calls_on_mem.

(** C4.  With at least one symbolic operand, each symbolic operand referring
    to a node, [normalize_symints] returns for a symbolic operand a handle
    on the node of its word, and for a concrete operand the handle returned
    by one call of [wrap] on the common node (the node of the first operand
    if it is symbolic, of the second otherwise) with the raw word of that
    operand.  These are the only virtual calls it makes, and it fails only
    when [wrap] does. *)
Theorem normalize_symints_handles
    (MASK IS_SYM : Z) {G : Type} {impl : SymIntNodeImpl G}
    (x y : SymInt) (w : world G) :
  let p := toSymIntNodeImplUnowned MASK x in
  let q := toSymIntNodeImplUnowned MASK y in
  let sx := is_symbolic false MASK IS_SYM x in
  let sy := is_symbolic false MASK IS_SYM y in
  sx || sy = true ->
  (sx = true -> p <> 0) ->
  (sy = true -> q <> 0) ->
  let common := if sx then p else q in
  exists (oa ob : outcome SymIntNode) (w' : world G),
    normalize_symints false MASK IS_SYM x y w
      = (match oa, ob with
         | Ok ha, Ok hb => Ok (ha, hb)
         | Fail e, _ => Fail e
         | _, Fail e => Fail e
         end, w') /\
    (sx = true -> oa = Ok p) /\
    (sy = true -> ob = Ok q) /\
    calls w' =
      (if sy then [] else [(CallWrap common (data_ y), reply_of RNode ob)]) ++
      (if sx then [] else [(CallWrap common (data_ x), reply_of RNode oa)]) ++
      calls w.
Proof.
  intros p q sx sy Hone Hp Hq common. subst common.
  destruct w as [hp log].
  unfold normalize_symints, normalize_symints_run, SymInt_copy.
  destruct sx eqn:Hx, sy eqn:Hy; subst sx sy; try discriminate Hone;
    rewrite Hx, Hy.
  - (* both symbolic *)
    specialize (Hp eq_refl). specialize (Hq eq_refl).
    norm_step. rewrite Hx. norm_step.
    rewrite (toSymIntNodeImpl_symbolic _ _ x _ Hx). fold p. norm_step.
    rewrite Hy. norm_step.
    rewrite (toSymIntNodeImpl_symbolic _ _ y _ Hy). fold q. norm_step.
    rewrite (is_null_false p Hp). norm_step.
    rewrite (is_null_false q Hq). norm_step.
    exists (Ok p), (Ok q). eexists. split; [reflexivity|].
    split; [reflexivity|]. split; [reflexivity|]. norm_log. reflexivity.
  - (* the second operand is concrete *)
    specialize (Hp eq_refl). clear Hq.
    norm_step. rewrite Hx. norm_step.
    rewrite (toSymIntNodeImpl_symbolic _ _ x _ Hx). fold p. norm_step.
    rewrite Hy. norm_step.
    rewrite (is_null_false p Hp). norm_step.
    rewrite (is_null_false p Hp). norm_step.
    destruct (node_wrap p (data_ y) _) as [[h|e] h'] eqn:Hwrap; norm_step.
    + exists (Ok p), (Ok h). eexists. split; [reflexivity|].
      split; [reflexivity|]. split; [discriminate|]. norm_log. reflexivity.
    + exists (Ok p), (Fail e). eexists. split; [reflexivity|].
      split; [reflexivity|]. split; [discriminate|]. norm_log. reflexivity.
  - (* the first operand is concrete *)
    specialize (Hq eq_refl). clear Hp.
    norm_step. rewrite Hx. norm_step. rewrite Hy. norm_step.
    rewrite (toSymIntNodeImpl_symbolic _ _ y _ Hy). fold q. norm_step.
    rewrite (is_null_false q Hq). norm_step.
    destruct (node_wrap q (data_ x) _) as [[h|e] h'] eqn:Hwrap; norm_step.
    + rewrite (is_null_false q Hq). norm_step.
      exists (Ok h), (Ok q). eexists. split; [reflexivity|].
      split; [discriminate|]. split; [reflexivity|]. norm_log. reflexivity.
    + exists (Fail e), (Ok q). eexists. split; [reflexivity|].
      split; [discriminate|]. split; [reflexivity|]. norm_log. reflexivity.
Qed.

(** Normalizing 3 against the node at 16: [wrap] is called once, on 16 with
    3; the new node is at 32 and the handles are 32 and 16. *)
Lemma normalize_symints_handles_witness :
  normalize_symints false MASK_top2 IS_SYM_top (MkSymInt 3) sym16 toy_world
    = (Ok (32, 16), snd (normalize_symints false MASK_top2 IS_SYM_top (MkSymInt 3) sym16 toy_world)) /\
  exists (oa ob : outcome SymIntNode) (w' : world toy_graph),
    normalize_symints false MASK_top2 IS_SYM_top (MkSymInt 3) sym16 toy_world
      = (match oa, ob with
         | Ok ha, Ok hb => Ok (ha, hb)
         | Fail e, _ => Fail e
         | _, Fail e => Fail e
         end, w') /\
    ob = Ok 16 /\
    calls w' = [(CallWrap 16 3, reply_of RNode oa)].
Proof.
  split; [vm_compute; reflexivity|].
  destruct (normalize_symints_handles MASK_top2 IS_SYM_top (MkSymInt 3) sym16 toy_world
              eq_refl ltac:(discriminate) ltac:(discriminate))
    as (oa & ob & w' & Hrun & _ & Hb & Hlog).
  exists oa, ob, w'. split; [exact Hrun|]. split; [exact (Hb eq_refl) | exact Hlog].
Defined.

(** ** What the operators do to their operands *)

Lemma SymInt_copy_value C10_MOBILE MASK IS_SYM {G : Type} (s : SymInt) (w : world G) :
  fst (SymInt_copy C10_MOBILE MASK IS_SYM s w) = Ok s.
Proof. unfold SymInt_copy. destruct (is_symbolic _ _ _ s); reflexivity. Qed.

(** The parameters of [normalize_symints] are copies of the arguments, and
    they still hold the words of the arguments when the body ends. *)
Lemma normalize_symints_run_params C10_MOBILE MASK IS_SYM
    {G : Type} {impl : SymIntNodeImpl G} (x y : SymInt) (w : world G) :
  a_ (fst (snd (normalize_symints_run C10_MOBILE MASK IS_SYM x y w))) = x /\
  b_ (fst (snd (normalize_symints_run C10_MOBILE MASK IS_SYM x y w))) = y.
Proof.
  unfold normalize_symints_run.
  pose proof (SymInt_copy_value C10_MOBILE MASK IS_SYM x w) as Hx.
  destruct (SymInt_copy _ _ _ x w) as [[xa|e] w1]; [|discriminate Hx].
  pose proof (SymInt_copy_value C10_MOBILE MASK IS_SYM y w1) as Hy.
  destruct (SymInt_copy _ _ _ y w1) as [[ya|e] w2]; [|discriminate Hy].
  cbn [fst] in Hx, Hy. injection Hx as ->. injection Hy as ->.
  pose proof (normalize_symints_body_keeps C10_MOBILE MASK IS_SYM
                (Frame x y null null, w2)) as Hk.
  unfold keeps in Hk. cbn [fst a_ b_] in Hk.
  injection Hk as Ha Hb. split; assumption.
Qed.

(** C2, as the code has it.  A binary operator leaves the object it is
    called on as it was: after the call the receiver holds the word it held
    before, so a symbolic receiver is still symbolic and a concrete receiver
    is still concrete.  The operand on the right is passed by value: the
    operator works on a parameter object of its own. *)
Theorem operators_leave_operands
    (C10_MOBILE : bool) (MASK IS_SYM : Z) {G : Type} {impl : SymIntNodeImpl G}
    (x y : SymInt) (w : world G) :
  fst (snd (operator_plus C10_MOBILE MASK IS_SYM y (x, w))) = x /\
  fst (snd (operator_minus C10_MOBILE MASK IS_SYM y (x, w))) = x /\
  fst (snd (operator_times C10_MOBILE MASK IS_SYM y (x, w))) = x /\
  fst (snd (operator_div C10_MOBILE MASK IS_SYM y (x, w))) = x /\
  fst (snd (operator_rem C10_MOBILE MASK IS_SYM y (x, w))) = x /\
  fst (snd (operator_eq C10_MOBILE MASK IS_SYM y (x, w))) = x /\
  fst (snd (operator_ne C10_MOBILE MASK IS_SYM y (x, w))) = x /\
  fst (snd (operator_lt C10_MOBILE MASK IS_SYM y (x, w))) = x /\
  fst (snd (operator_le C10_MOBILE MASK IS_SYM y (x, w))) = x /\
  fst (snd (operator_gt C10_MOBILE MASK IS_SYM y (x, w))) = x /\
  fst (snd (operator_ge C10_MOBILE MASK IS_SYM y (x, w))) = x.
Proof.
  unfold operator_plus, operator_minus, operator_times, operator_div, operator_rem,
    operator_eq, operator_lt, operator_le, operator_gt, operator_ge.
  repeat lazymatch goal with
  | |- _ /\ _ => split
  | |- fst (snd (operator_ne _ _ _ _ _)) = _ =>
      apply (operator_ne_keeps C10_MOBILE MASK IS_SYM y (x, w))
  | |- fst (snd (arith _ _ _ ?n ?o _ _)) = _ =>
      apply (arith_keeps C10_MOBILE MASK IS_SYM n o y (x, w))
  | |- fst (snd (compare _ _ _ ?n ?o _ _)) = _ =>
      apply (compare_keeps C10_MOBILE MASK IS_SYM n o y (x, w))
  end.
Qed.

(** C2, as stated, fails.  With [x] the integer 3 and [y] the word of the
    node at 16, [x + y] returns a symbolic value, and [x] is concrete after
    the call as it was before; so is the parameter of [normalize_symints]
    that received it. *)
Lemma operators_promote_operands_counterexample :
  is_symbolic false MASK_top2 IS_SYM_top sym16 = true /\
  is_symbolic false MASK_top2 IS_SYM_top (MkSymInt 3) = false /\
  (exists z, fst (operator_plus false MASK_top2 IS_SYM_top sym16 (MkSymInt 3, toy_world)) = Ok z /\
             is_symbolic false MASK_top2 IS_SYM_top z = true) /\
  is_symbolic false MASK_top2 IS_SYM_top
    (fst (snd (operator_plus false MASK_top2 IS_SYM_top sym16 (MkSymInt 3, toy_world)))) = false /\
  is_symbolic false MASK_top2 IS_SYM_top
    (a_ (fst (snd (normalize_symints_run false MASK_top2 IS_SYM_top
                     (MkSymInt 3) sym16 toy_world)))) = false.
Proof.
  split; [reflexivity|]. split; [reflexivity|]. split.
  - exists (MkSymInt (to_i64 (Z.lor 48 IS_SYM_top))). split; vm_compute; reflexivity.
  - split; vm_compute; reflexivity.
Qed.

(** ** Not-equal *)

(** C5.  [operator!=] returns the negation of what [operator==] returns on
    the same receiver and a copy of the same parameter, fails when it
    fails, and ends in the state it ends in.  The only virtual calls it
    makes are those of [operator==]: [wrap], [eq] and [bool_]. *)
Theorem operator_ne_negates_operator_eq
    (C10_MOBILE : bool) (MASK IS_SYM : Z) {G : Type} {impl : SymIntNodeImpl G}
    (x y : SymInt) (w : world G) :
  let equal :=
    by_value C10_MOBILE MASK IS_SYM (SymInt_copy C10_MOBILE MASK IS_SYM y)
      (operator_eq C10_MOBILE MASK IS_SYM) (x, w) in
  operator_ne C10_MOBILE MASK IS_SYM y (x, w)
    = (match fst equal with Ok c => Ok (negb c) | Fail e => Fail e end, snd equal) /\
  logs eq_path_call w (snd (snd (operator_ne C10_MOBILE MASK IS_SYM y (x, w)))).
Proof.
  cbv zeta. split.
  - unfold operator_ne, bind, ret.
    destruct (by_value _ _ _ _ _ (x, w)) as [[c|e] s']; reflexivity.
  - assert (Hne : preserves (logs_in (G := G) eq_path_call)
                    (operator_ne C10_MOBILE MASK IS_SYM y)).
    { unfold operator_ne. repeat frame_step.
      apply by_value_logs.
      - apply SymInt_copy_logs.
      - intros p. apply compare_logs; intros; exact I. }
    exact (Hne (x, w)).
Qed.

(** * Further properties *)

(** ** The tag of a word made by [toSymInt] *)

Lemma to_u64_land (x : Z) : to_u64 x = Z.land x (Z.ones 64).
Proof. unfold to_u64. rewrite Z.land_ones by lia. reflexivity. Qed.

Lemma to_u64_range (x : Z) : 0 <= to_u64 x < 2 ^ 64.
Proof. unfold to_u64. apply Z.mod_pos_bound. lia. Qed.

Lemma to_u64_small (x : Z) : 0 <= x < 2 ^ 64 -> to_u64 x = x.
Proof. intros Hx. unfold to_u64. apply Z.mod_small, Hx. Qed.

Lemma to_u64_to_i64 (x : Z) : to_u64 (to_i64 x) = to_u64 x.
Proof.
  unfold to_u64, to_i64.
  rewrite <- Zminus_mod_idemp_l, Zmod_mod, Zminus_mod_idemp_l.
  replace (x + 2 ^ 63 - 2 ^ 63) with x by ring. reflexivity.
Qed.

Lemma lor_u64 (x y : Z) :
  0 <= x < 2 ^ 64 -> 0 <= y < 2 ^ 64 -> 0 <= Z.lor x y < 2 ^ 64.
Proof.
  intros Hx Hy.
  rewrite <- (to_u64_small x Hx), <- (to_u64_small y Hy), !to_u64_land.
  rewrite <- Z.land_lor_distr_l, <- to_u64_land. apply to_u64_range.
Qed.

Lemma land_u64_l (x y : Z) : 0 <= x < 2 ^ 64 -> 0 <= Z.land x y < 2 ^ 64.
Proof.
  intros Hx. rewrite <- (to_u64_small x Hx), to_u64_land.
  rewrite <- Z.land_assoc, (Z.land_comm (Z.ones 64)), Z.land_assoc, <- to_u64_land.
  apply to_u64_range.
Qed.

(** [x & ~MASK] in 64 bits is [x] without the bits of [MASK]. *)
Lemma land_not_mask (MASK x : Z) :
  0 <= x < 2 ^ 64 -> Z.land x (to_u64 (Z.lnot MASK)) = Z.ldiff x MASK.
Proof.
  intros Hx. apply Z.bits_inj'. intros i Hi.
  rewrite Z.land_spec, Z.ldiff_spec. unfold to_u64.
  destruct (Z.lt_ge_cases i 64) as [Hlt|Hge].
  - rewrite Z.mod_pow2_bits_low, Z.lnot_spec by lia. reflexivity.
  - rewrite Z.mod_pow2_bits_high by lia.
    rewrite <- (Z.mod_small x (2 ^ 64)) by exact Hx.
    rewrite Z.mod_pow2_bits_high by lia. reflexivity.
Qed.

Lemma ldiff_id_iff (x m : Z) : Z.ldiff x m = x <-> Z.land x m = 0.
Proof.
  split; intros H.
  - rewrite <- H. apply Z.bits_inj'. intros i Hi.
    rewrite Z.land_spec, Z.ldiff_spec, Z.bits_0.
    destruct (Z.testbit x i), (Z.testbit m i); reflexivity.
  - apply Z.bits_inj'. intros i Hi. rewrite Z.ldiff_spec.
    assert (Hb : Z.testbit (Z.land x m) i = false) by (rewrite H; apply Z.bits_0).
    rewrite Z.land_spec in Hb.
    destruct (Z.testbit x i), (Z.testbit m i); try reflexivity; discriminate Hb.
Qed.

Lemma is_sym_outside_payload (MASK IS_SYM : Z) :
  Z.land MASK IS_SYM = IS_SYM -> Z.ldiff IS_SYM MASK = 0.
Proof.
  intros H. rewrite <- H, (Z.land_comm MASK). apply Z.bits_inj'. intros i Hi.
  rewrite Z.ldiff_spec, Z.land_spec, Z.bits_0.
  destruct (Z.testbit IS_SYM i), (Z.testbit MASK i); reflexivity.
Qed.

Section Tag.
Variables MASK IS_SYM : Z.
Hypothesis MASK_u64 : 0 <= MASK < 2 ^ 64.
Hypothesis IS_SYM_in_MASK : Z.land MASK IS_SYM = IS_SYM.

Lemma IS_SYM_u64 : 0 <= IS_SYM < 2 ^ 64.
Proof using MASK_u64 IS_SYM_in_MASK.
  rewrite <- IS_SYM_in_MASK. apply land_u64_l, MASK_u64.
Qed.

(** The word [toSymInt] makes from the address [p], as an unsigned value. *)
Lemma toSymInt_rep (p : Z) :
  let rep := Z.lor (Z.land (to_u64 p) (to_u64 (Z.lnot MASK))) IS_SYM in
  to_u64 (to_i64 rep) = Z.lor (Z.ldiff (to_u64 p) MASK) IS_SYM /\
  0 <= Z.lor (Z.ldiff (to_u64 p) MASK) IS_SYM < 2 ^ 64.
Proof using MASK_u64 IS_SYM_in_MASK.
  cbv zeta. rewrite land_not_mask by apply to_u64_range.
  assert (Hr : 0 <= Z.lor (Z.ldiff (to_u64 p) MASK) IS_SYM < 2 ^ 64).
  { apply lor_u64; [|apply IS_SYM_u64].
    rewrite <- land_not_mask by apply to_u64_range.
    apply land_u64_l, to_u64_range. }
  split; [|exact Hr]. rewrite to_u64_to_i64. apply to_u64_small, Hr.
Qed.

Lemma toSymInt_tag (p : Z) :
  Z.land MASK (Z.lor (Z.ldiff (to_u64 p) MASK) IS_SYM) = IS_SYM.
Proof using IS_SYM_in_MASK.
  rewrite Z.land_lor_distr_r, IS_SYM_in_MASK.
  replace (Z.land MASK (Z.ldiff (to_u64 p) MASK)) with 0; [reflexivity|].
  symmetry. apply Z.bits_inj'. intros i Hi.
  rewrite Z.land_spec, Z.ldiff_spec, Z.bits_0.
  destruct (Z.testbit MASK i), (Z.testbit (to_u64 p) i); reflexivity.
Qed.

Lemma toSymInt_payload (p : Z) :
  Z.ldiff (Z.lor (Z.ldiff (to_u64 p) MASK) IS_SYM) MASK = Z.ldiff (to_u64 p) MASK.
Proof using IS_SYM_in_MASK.
  pose proof (is_sym_outside_payload MASK IS_SYM IS_SYM_in_MASK) as Hout.
  apply Z.bits_inj'. intros i Hi.
  assert (Hb : Z.testbit (Z.ldiff IS_SYM MASK) i = false) by (rewrite Hout; apply Z.bits_0).
  rewrite Z.ldiff_spec in Hb. rewrite !Z.ldiff_spec, Z.lor_spec, Z.ldiff_spec.
  destruct (Z.testbit (to_u64 p) i), (Z.testbit MASK i), (Z.testbit IS_SYM i);
    try reflexivity; discriminate Hb.
Qed.

End Tag.

Lemma toSymInt_word_is_symbolic (MASK IS_SYM p : Z) :
  0 <= MASK < 2 ^ 64 ->
  Z.land MASK IS_SYM = IS_SYM ->
  is_symbolic false MASK IS_SYM
    (SymInt_UNCHECKED (to_i64 (Z.lor (Z.land (to_u64 p) (to_u64 (Z.lnot MASK))) IS_SYM)))
  = true.
Proof.
  intros HM HI. unfold is_symbolic, SymInt_UNCHECKED. cbn [data_].
  destruct (toSymInt_rep MASK IS_SYM HM HI p) as [-> _].
  rewrite toSymInt_tag by exact HI. apply Z.eqb_refl.
Qed.

(** X1.  Whatever handle it is given, [toSymInt] returns a word that
    [is_symbolic] accepts, and it moves no count and makes no call: the
    handle's unit of ownership passes to the word.  The tag constants are
    64-bit and [IS_SYM] lies within [MASK]. *)
Theorem toSymInt_is_symbolic (MASK IS_SYM : Z) {G : Type} (sin_sp : SymIntNode) (w : world G) :
  0 <= MASK < 2 ^ 64 ->
  Z.land MASK IS_SYM = IS_SYM ->
  exists t : SymInt,
    toSymInt false MASK IS_SYM sin_sp w = (Ok t, w) /\
    is_symbolic false MASK IS_SYM t = true.
Proof.
  intros HM HI. eexists. split; [reflexivity|].
  apply toSymInt_word_is_symbolic; assumption.
Qed.

Lemma toSymInt_is_symbolic_witness :
  exists t : SymInt,
    toSymInt false MASK_top2 IS_SYM_top 32 toy_world = (Ok t, toy_world) /\
    is_symbolic false MASK_top2 IS_SYM_top t = true.
Proof.
  apply (toSymInt_is_symbolic MASK_top2 IS_SYM_top 32 toy_world).
  - vm_compute. split; [discriminate | reflexivity].
  - reflexivity.
Defined.

(** X2.  The address read back from the word that [toSymInt] makes of a
    handle is the address of the handle exactly when that address uses no
    bit of [MASK]; the bits of [MASK] in an address are lost.  For such an
    address [toSymIntNodeImpl] on the word returns a handle on the same
    node. *)
Theorem toSymInt_round_trip (MASK IS_SYM : Z) {G : Type} (sin_sp : SymIntNode) (w : world G) :
  0 <= MASK < 2 ^ 64 ->
  Z.land MASK IS_SYM = IS_SYM ->
  0 <= sin_sp < 2 ^ 64 ->
  exists t : SymInt,
    toSymInt false MASK IS_SYM sin_sp w = (Ok t, w) /\
    toSymIntNodeImplUnowned MASK t = Z.ldiff sin_sp MASK /\
    (toSymIntNodeImplUnowned MASK t = sin_sp <-> Z.land sin_sp MASK = 0) /\
    (Z.land sin_sp MASK = 0 ->
     toSymIntNodeImpl false MASK IS_SYM (t, w) = (Ok sin_sp, (t, on_mem (retain_ sin_sp) w))).
Proof.
  intros HM HI Hp. eexists. split; [reflexivity|].
  assert (Hdec : toSymIntNodeImplUnowned MASK
            (SymInt_UNCHECKED (to_i64 (Z.lor (Z.land (to_u64 sin_sp) (to_u64 (Z.lnot MASK))) IS_SYM)))
          = Z.ldiff sin_sp MASK).
  { unfold toSymIntNodeImplUnowned, SymInt_UNCHECKED. cbn [data_].
    destruct (toSymInt_rep MASK IS_SYM HM HI sin_sp) as [-> Hr].
    rewrite land_not_mask by exact Hr.
    rewrite toSymInt_payload by exact HI.
    rewrite (to_u64_small sin_sp Hp). reflexivity. }
  split; [exact Hdec|]. split.
  - rewrite Hdec. apply ldiff_id_iff.
  - intros Hfree.
    rewrite toSymIntNodeImpl_symbolic.
    + rewrite Hdec. rewrite (proj2 (ldiff_id_iff sin_sp MASK) Hfree). reflexivity.
    + apply toSymInt_word_is_symbolic; assumption.
Qed.

(** The node at 32 comes back from its word; the address [2^62 + 32] uses a
    bit of the tag and comes back as 32. *)
Lemma toSymInt_round_trip_witness :
  (exists t : SymInt,
     toSymInt false MASK_top2 IS_SYM_top 32 toy_world = (Ok t, toy_world) /\
     toSymIntNodeImplUnowned MASK_top2 t = 32) /\
  (exists t : SymInt,
     toSymInt false MASK_top2 IS_SYM_top (2 ^ 62 + 32) toy_world = (Ok t, toy_world) /\
     toSymIntNodeImplUnowned MASK_top2 t = 32).
Proof.
  assert (HM : 0 <= MASK_top2 < 2 ^ 64) by (vm_compute; split; [discriminate | reflexivity]).
  split.
  - destruct (toSymInt_round_trip MASK_top2 IS_SYM_top 32 toy_world HM eq_refl)
      as (t & Ht & _ & Hiff & _); [vm_compute; split; [discriminate | reflexivity]|].
    exists t. split; [exact Ht | apply Hiff; reflexivity].
  - destruct (toSymInt_round_trip MASK_top2 IS_SYM_top (2 ^ 62 + 32) toy_world HM eq_refl)
      as (t & Ht & Hdec & _); [vm_compute; split; [discriminate | reflexivity]|].
    exists t. split; [exact Ht | exact Hdec].
Defined.

(** ** Counting owners *)

Section CountLemmas.
Context {G : Type}.
Implicit Types (p k : Z) (h : heap G).

Lemma count_retain p k h :
  p <> 0 ->
  count (retain_ p h) k = (count h k + if decide (k = p) then 1 else 0)%nat.
Proof.
  intros Hp. unfold count. rewrite retain_count by exact Hp.
  destruct (decide (k = p)) as [->|Hne].
  - rewrite lookup_insert_eq. destruct (refcount h !! p); cbn; lia.
  - rewrite lookup_insert_ne by congruence. lia.
Qed.

Lemma count_reset p k h :
  p <> 0 ->
  count (reset_ p h) k = (count h k - if decide (k = p) then 1 else 0)%nat.
Proof.
  intros Hp. unfold count, reset_. rewrite is_null_false by exact Hp.
  destruct (decide (k = p)) as [->|Hne].
  - destruct (refcount h !! p) as [[|[|n]]|] eqn:E; cbn [refcount];
      rewrite ?lookup_insert_eq, ?lookup_delete_eq; cbn; lia.
  - destruct (refcount h !! p) as [[|[|n]]|] eqn:E; cbn [refcount];
      rewrite ?lookup_insert_ne, ?lookup_delete_ne by congruence; lia.
Qed.

End CountLemmas.

(** ** Normalization, case by case *)

Section NormalizeCases.
Variables MASK IS_SYM : Z.
Context {G : Type} {impl : SymIntNodeImpl G}.
Implicit Types (x y : SymInt) (w : world G).

(** Two symbolic operands: three handles are taken on each node (the
    parameter, the local handle, the element of the array) and two are given
    back. *)
Lemma normalize_symints_both_symbolic x y w :
  let p := toSymIntNodeImplUnowned MASK x in
  let q := toSymIntNodeImplUnowned MASK y in
  is_symbolic false MASK IS_SYM x = true ->
  is_symbolic false MASK IS_SYM y = true ->
  p <> 0 -> q <> 0 ->
  normalize_symints false MASK IS_SYM x y w =
    (Ok (p, q),
     on_mem (fun h => reset_ p (reset_ q (reset_ p (reset_ q
               (retain_ q (retain_ p (retain_ q (retain_ p (retain_ q (retain_ p h))))))))))
            w).
Proof.
  intros p q Hx Hy Hp Hq. destruct w as [hp log].
  unfold normalize_symints, normalize_symints_run, SymInt_copy. rewrite Hx, Hy.
  norm_step. rewrite Hx. norm_step.
  rewrite (toSymIntNodeImpl_symbolic _ _ x _ Hx). fold p. norm_step.
  rewrite Hy. norm_step.
  rewrite (toSymIntNodeImpl_symbolic _ _ y _ Hy). fold q. norm_step.
  rewrite (is_null_false p Hp). norm_step.
  rewrite (is_null_false q Hq). norm_step.
  unfold SymInt_destroy. rewrite Hx, Hy. fold p q.
  unfold on_mem. cbn [mem calls]. rewrite !reset_null. reflexivity.
Qed.

(** X3.  [normalize_symints] on two concrete operands has no defined
    behaviour: no handle is resolved, the common node pointer is null and
    the call of [wrap] goes through it.  Nothing has been counted or called
    by then. *)
Theorem normalize_symints_both_concrete x y w :
  is_symbolic false MASK IS_SYM x = false ->
  is_symbolic false MASK IS_SYM y = false ->
  normalize_symints false MASK IS_SYM x y w = (Fail Undefined, w).
Proof.
  intros Hx Hy. destruct w as [hp log].
  unfold normalize_symints, normalize_symints_run, SymInt_copy. rewrite Hx, Hy.
  norm_step. rewrite Hx. norm_step. rewrite Hy. norm_step.
  unfold SymInt_destroy. rewrite Hx, Hy.
  unfold on_mem. cbn [mem calls]. rewrite !reset_null. reflexivity.
Qed.

End NormalizeCases.

(** ** The symbolic path of the operators *)

Section SymbolicPath.
Variables MASK IS_SYM : Z.
Context {G : Type} {impl : SymIntNodeImpl G}.
Implicit Types (x y : SymInt) (w : world G).

Local Abbreviation word n :=
  (SymInt_UNCHECKED (to_i64 (Z.lor (Z.land (to_u64 n) (to_u64 (Z.lnot MASK))) IS_SYM))).

(** What an arithmetic operator does once [normalize_symints] has returned
    the handles [ha] and [hb]. *)
Lemma arith_after_normalize native op x y w ha hb w1 :
  negb (is_symbolic false MASK IS_SYM x) && negb (is_symbolic false MASK IS_SYM y) = false ->
  normalize_symints false MASK IS_SYM x y w = (Ok (ha, hb), w1) ->
  ha <> 0 ->
  arith false MASK IS_SYM native op y (x, w) =
    (match fst (node_binary op ha hb (mem w1)) with
     | Ok n => Ok (word n)
     | Fail e => Fail e
     end,
     (x, World (reset_ ha (reset_ hb (snd (node_binary op ha hb (mem w1)))))
               ((CallBinary op ha hb, reply_of RNode (fst (node_binary op ha hb (mem w1))))
                  :: calls w1))).
Proof.
  intros Hsym Hnorm Ha.
  unfold arith, bind, this. cbn [fst snd]. rewrite Hsym.
  unfold static at 1. cbn [fst snd]. rewrite Hnorm.
  unfold finally, destroy_res, cleanup, bind, static, binary, dispatch, toSymInt, ret.
  cbn [fst snd]. rewrite (is_null_false ha Ha).
  destruct (node_binary op ha hb (mem w1)) as [[n|e] h']; reflexivity.
Qed.


(** The same for a comparison: the node that [op] returns is asked for its
    truth value and released. *)
Lemma compare_after_normalize native op x y w ha hb w1 :
  negb (is_symbolic false MASK IS_SYM x) && negb (is_symbolic false MASK IS_SYM y) = false ->
  normalize_symints false MASK IS_SYM x y w = (Ok (ha, hb), w1) ->
  ha <> 0 ->
  compare false MASK IS_SYM native op y (x, w) =
    let r := node_binary op ha hb (mem w1) in
    let log1 := (CallBinary op ha hb, reply_of RNode (fst r)) :: calls w1 in
    match fst r with
    | Fail e => (Fail e, (x, World (reset_ ha (reset_ hb (snd r))) log1))
    | Ok t =>
        if is_null t then (Fail Undefined, (x, World (reset_ ha (reset_ hb (snd r))) log1))
        else
          let c := node_bool_ t (snd r) in
          (fst c, (x, World (reset_ ha (reset_ hb (reset_ t (snd c))))
                            ((CallBool t, reply_of RBool (fst c)) :: log1)))
    end.
Proof.
  intros Hsym Hnorm Ha.
  unfold compare, bind, this. cbn [fst snd]. rewrite Hsym.
  unfold static at 1. cbn [fst snd]. rewrite Hnorm.
  unfold finally, destroy_res, cleanup, bind, static, binary, bool_, dispatch.
  cbn [fst snd]. rewrite (is_null_false ha Ha).
  destruct (node_binary op ha hb (mem w1)) as [[t|e] h']; cbn [fst snd mem calls]; [|reflexivity].
  destruct (is_null t) eqn:Ht.
  - unfold is_null in Ht. apply Z.eqb_eq in Ht. subst t. reflexivity.
  - destruct (node_bool_ t h') as [c h'']. reflexivity.
Qed.

End SymbolicPath.

Lemma normalize_symints_both_concrete_witness :
  normalize_symints false MASK_top2 IS_SYM_top (MkSymInt 3) (MkSymInt 4) toy_world
    = (Fail Undefined, toy_world).
Proof.
  exact (normalize_symints_both_concrete MASK_top2 IS_SYM_top
           (MkSymInt 3) (MkSymInt 4) toy_world eq_refl eq_refl).
Defined.

(** X4.  On two symbolic operands [normalize_symints] asks no node anything
    and returns handles on the nodes of the two words; when it has returned,
    each node has one owner more for each returned handle on it, and no
    other count has changed. *)
Theorem normalize_symints_counts
    (MASK IS_SYM : Z) {G : Type} {impl : SymIntNodeImpl G}
    (x y : SymInt) (w : world G) :
  let p := toSymIntNodeImplUnowned MASK x in
  let q := toSymIntNodeImplUnowned MASK y in
  is_symbolic false MASK IS_SYM x = true ->
  is_symbolic false MASK IS_SYM y = true ->
  p <> 0 -> q <> 0 ->
  exists w' : world G,
    normalize_symints false MASK IS_SYM x y w = (Ok (p, q), w') /\
    calls w' = calls w /\
    graph (mem w') = graph (mem w) /\
    forall k : Z,
      count (mem w') k
      = (count (mem w) k + (if decide (k = p) then 1 else 0)
                         + (if decide (k = q) then 1 else 0))%nat.
Proof.
  intros p q Hx Hy Hp Hq. eexists.
  split; [apply normalize_symints_both_symbolic; assumption|].
  split; [reflexivity|]. split.
  - cbn [on_mem mem]. rewrite !reset_graph, !retain_graph. reflexivity.
  - intros k. cbn [on_mem mem].
    rewrite !count_reset, !count_retain by assumption.
    subst p q. repeat case_decide; lia.
Qed.

(** The node at 16 against itself: two handles on it, two owners more. *)
Lemma normalize_symints_counts_witness :
  exists w' : world toy_graph,
    normalize_symints false MASK_top2 IS_SYM_top sym16 sym16 toy_world = (Ok (16, 16), w') /\
    calls w' = [] /\
    count (mem w') 16 = 3%nat.
Proof.
  destruct (normalize_symints_counts MASK_top2 IS_SYM_top sym16 sym16 toy_world
              eq_refl eq_refl ltac:(discriminate) ltac:(discriminate))
    as (w' & Hrun & Hlog & _ & Hcount).
  exists w'. split; [exact Hrun|]. split; [exact Hlog|]. exact (Hcount 16).
Defined.

(** ** Two symbolic operands *)

(** X5.  On two symbolic operands every arithmetic operator makes exactly
    one virtual call: its own node method ([add] for [+], [sub] for [-],
    [mul] for [*], [floordiv] for [/], [mod] for [%]), on the node of the
    receiver with the node of the argument, in that order.  It returns
    [toSymInt] of the handle that comes back and fails as the method
    fails. *)
Theorem arithmetic_delegates_in_order
    (MASK IS_SYM : Z) {G : Type} {impl : SymIntNodeImpl G}
    (x y : SymInt) (w : world G) :
  let p := toSymIntNodeImplUnowned MASK x in
  let q := toSymIntNodeImplUnowned MASK y in
  is_symbolic false MASK IS_SYM x = true ->
  is_symbolic false MASK IS_SYM y = true ->
  p <> 0 -> q <> 0 ->
  let h1 := mem (snd (normalize_symints false MASK IS_SYM x y w)) in
  let delegates (f : SymInt -> method SymInt) (op : binop) :=
    let r := fst (node_binary op p q h1) in
    fst (f y (x, w))
      = match r with
        | Ok n => fst (toSymInt false MASK IS_SYM n w)
        | Fail e => Fail e
        end /\
    calls (snd (snd (f y (x, w)))) = (CallBinary op p q, reply_of RNode r) :: calls w in
  delegates (operator_plus false MASK IS_SYM) op_add /\
  delegates (operator_minus false MASK IS_SYM) op_sub /\
  delegates (operator_times false MASK IS_SYM) op_mul /\
  delegates (operator_div false MASK IS_SYM) op_floordiv /\
  delegates (operator_rem false MASK IS_SYM) op_mod.
Proof.
  intros p q Hx Hy Hp Hq h1 delegates.
  assert (Hall : forall native op, delegates (arith false MASK IS_SYM native op) op).
  { intros native op. subst delegates h1. cbv beta zeta.
    pose proof (normalize_symints_both_symbolic MASK IS_SYM x y w Hx Hy Hp Hq) as Hn.
    fold p q in Hn.
    rewrite (arith_after_normalize MASK IS_SYM native op x y w p q _
               ltac:(rewrite Hx; reflexivity) Hn Hp).
    rewrite Hn. cbn [fst snd mem calls on_mem].
    split; [|reflexivity].
    destruct (fst (node_binary op p q _)); reflexivity. }
  repeat split; apply Hall.
Qed.

(** The node at 16 holds 5: [v - v] asks it for [sub] with itself and
    returns the word of the node that comes back, at 32. *)
Lemma arithmetic_delegates_in_order_witness :
  fst (operator_minus false MASK_top2 IS_SYM_top sym16 (sym16, toy_world5))
    = fst (toSymInt false MASK_top2 IS_SYM_top 32 toy_world5) /\
  calls (snd (snd (operator_minus false MASK_top2 IS_SYM_top sym16 (sym16, toy_world5))))
    = [(CallBinary op_sub 16 16, RNode 32)].
Proof.
  exact (proj1 (proj2 (arithmetic_delegates_in_order MASK_top2 IS_SYM_top sym16 sym16 toy_world5
                         eq_refl eq_refl ltac:(discriminate) ltac:(discriminate)))).
Defined.

(** X6.  On two symbolic operands every ordering comparison and [==] makes
    exactly two virtual calls: its own node method ([eq], [lt], [le], [gt],
    [ge]) on the node of the receiver with the node of the argument, then
    [bool_] on the node that comes back, whose answer it returns.  It fails
    as either call fails. *)
Theorem comparisons_delegate_in_order
    (MASK IS_SYM : Z) {G : Type} {impl : SymIntNodeImpl G}
    (x y : SymInt) (w : world G) :
  let p := toSymIntNodeImplUnowned MASK x in
  let q := toSymIntNodeImplUnowned MASK y in
  is_symbolic false MASK IS_SYM x = true ->
  is_symbolic false MASK IS_SYM y = true ->
  p <> 0 -> q <> 0 ->
  let h1 := mem (snd (normalize_symints false MASK IS_SYM x y w)) in
  let delegates (f : SymInt -> method bool) (op : binop) :=
    let r := node_binary op p q h1 in
    match fst r with
    | Fail e =>
        fst (f y (x, w)) = Fail e /\
        calls (snd (snd (f y (x, w)))) = (CallBinary op p q, RFail e) :: calls w
    | Ok t =>
        t <> 0 ->
        let c := fst (node_bool_ t (snd r)) in
        fst (f y (x, w)) = c /\
        calls (snd (snd (f y (x, w))))
          = (CallBool t, reply_of RBool c) :: (CallBinary op p q, RNode t) :: calls w
    end in
  delegates (operator_eq false MASK IS_SYM) op_eq /\
  delegates (operator_lt false MASK IS_SYM) op_lt /\
  delegates (operator_le false MASK IS_SYM) op_le /\
  delegates (operator_gt false MASK IS_SYM) op_gt /\
  delegates (operator_ge false MASK IS_SYM) op_ge.
Proof.
  intros p q Hx Hy Hp Hq h1 delegates.
  assert (Hall : forall native op, delegates (compare false MASK IS_SYM native op) op).
  { intros native op. subst delegates h1. cbv beta zeta.
    pose proof (normalize_symints_both_symbolic MASK IS_SYM x y w Hx Hy Hp Hq) as Hn.
    fold p q in Hn.
    rewrite (compare_after_normalize MASK IS_SYM native op x y w p q _
               ltac:(rewrite Hx; reflexivity) Hn Hp).
    rewrite Hn. cbn [fst snd mem calls on_mem]. cbv zeta.
    destruct (node_binary op p q _) as [[t|e] h']; cbn [fst snd].
    - intros Ht. rewrite (is_null_false t Ht). split; reflexivity.
    - split; reflexivity. }
  repeat split; apply Hall.
Qed.

(** The node at 16 holds 5: [v <= v] asks it for [le] with itself, then
    the new node at 32 for [bool_], and is true. *)
Lemma comparisons_delegate_in_order_witness :
  fst (operator_le false MASK_top2 IS_SYM_top sym16 (sym16, toy_world5)) = Ok true /\
  calls (snd (snd (operator_le false MASK_top2 IS_SYM_top sym16 (sym16, toy_world5))))
    = [(CallBool 32, RBool true); (CallBinary op_le 16 16, RNode 32)].
Proof.
  pose proof (proj1 (proj2 (proj2 (comparisons_delegate_in_order MASK_top2 IS_SYM_top
                                     sym16 sym16 toy_world5
                                     eq_refl eq_refl ltac:(discriminate) ltac:(discriminate)))))
    as Hle.
  vm_compute in Hle. vm_compute. apply Hle. discriminate.
Defined.

(** X7.  An arithmetic operator on two symbolic operands gives back every
    handle it took on their nodes: if the node method leaves the counts of
    the two operand nodes alone, then after the operator, whether the method
    returned or raised, each operand node has the owners it had before. *)
Theorem arithmetic_keeps_operand_counts
    (MASK IS_SYM : Z) {G : Type} {impl : SymIntNodeImpl G}
    (native : Z -> Z -> outcome Z) (op : binop) (x y : SymInt) (w : world G) :
  let p := toSymIntNodeImplUnowned MASK x in
  let q := toSymIntNodeImplUnowned MASK y in
  is_symbolic false MASK IS_SYM x = true ->
  is_symbolic false MASK IS_SYM y = true ->
  p <> 0 -> q <> 0 ->
  let h1 := mem (snd (normalize_symints false MASK IS_SYM x y w)) in
  count (snd (node_binary op p q h1)) p = count h1 p ->
  count (snd (node_binary op p q h1)) q = count h1 q ->
  let w' := snd (snd (arith false MASK IS_SYM native op y (x, w))) in
  count (mem w') p = count (mem w) p /\ count (mem w') q = count (mem w) q.
Proof.
  intros p q Hx Hy Hp Hq h1 Hkp Hkq w'. subst w' h1.
  pose proof (normalize_symints_both_symbolic MASK IS_SYM x y w Hx Hy Hp Hq) as Hn.
  fold p q in Hn.
  rewrite (arith_after_normalize MASK IS_SYM native op x y w p q _
             ltac:(rewrite Hx; reflexivity) Hn Hp).
  rewrite Hn in Hkp, Hkq. cbn [fst snd mem on_mem] in *.
  rewrite !count_reset, Hkp, Hkq by assumption.
  rewrite !count_reset, !count_retain by assumption.
  split; repeat case_decide; try congruence; lia.
Qed.

(** The node at 16 is owned once before [v + v] and once after it. *)
Lemma arithmetic_keeps_operand_counts_witness :
  count (mem (snd (snd (operator_plus false MASK_top2 IS_SYM_top sym16 (sym16, toy_world5))))) 16
    = count (mem toy_world5) 16.
Proof.
  exact (proj1 (arithmetic_keeps_operand_counts MASK_top2 IS_SYM_top native_add op_add
                  sym16 sym16 toy_world5
                  eq_refl eq_refl ltac:(discriminate) ltac:(discriminate)
                  eq_refl eq_refl)).
Defined.

(** ** What the operators never call *)

Lemma arith_logs C10_MOBILE MASK IS_SYM {G : Type} {impl : SymIntNodeImpl G}
    (P : call -> Prop) native op sci :
  (forall self num, P (CallWrap self num)) ->
  (forall self other, P (CallBinary op self other)) ->
  preserves (logs_in (G := G) P) (arith C10_MOBILE MASK IS_SYM native op sci).
Proof.
  intros Hwrap Hop. unfold arith, binary.
  repeat frame_step.
  - intros s. apply logs_refl.
  - apply static_logs, normalize_symints_logs, Hwrap.
  - apply static_logs, logs_dispatch, Hop.
  - apply static_logs, toSymInt_logs.
  - apply destroy_res_logs.
Qed.

Lemma guard_int_logs C10_MOBILE MASK IS_SYM {G : Type} {impl : SymIntNodeImpl G}
    file line :
  preserves (logs_in (G := G) (guard_path_call file line))
    (guard_int C10_MOBILE MASK IS_SYM file line).
Proof.
  unfold guard_int. repeat frame_step.
  - intros s. apply logs_refl.
  - apply toSymIntNodeImpl_logs.
  - apply static_logs, logs_dispatch. split; reflexivity.
  - apply cleanup_logs. intros w. apply logs_on_mem.
Qed.

(** X8.  Whatever the operands and whatever the nodes answer, the virtual
    calls an operator makes are calls of [wrap] and of its own node method,
    and for a comparison of [bool_]; [guard_int] calls nothing but the
    node's [guard_int], with the file and line it was given.  Calls made
    before are kept in the log in their order. *)
Theorem operators_call_only_their_method
    (C10_MOBILE : bool) (MASK IS_SYM : Z) {G : Type} {impl : SymIntNodeImpl G}
    (x y : SymInt) (file : string) (line : Z) (w : world G) :
  let only {A} (P : call -> Prop) (f : method A) := logs P w (snd (snd (f (x, w)))) in
  only (op_path_call op_add) (operator_plus C10_MOBILE MASK IS_SYM y) /\
  only (op_path_call op_sub) (operator_minus C10_MOBILE MASK IS_SYM y) /\
  only (op_path_call op_mul) (operator_times C10_MOBILE MASK IS_SYM y) /\
  only (op_path_call op_floordiv) (operator_div C10_MOBILE MASK IS_SYM y) /\
  only (op_path_call op_mod) (operator_rem C10_MOBILE MASK IS_SYM y) /\
  only (compare_path_call op_eq) (operator_eq C10_MOBILE MASK IS_SYM y) /\
  only (compare_path_call op_lt) (operator_lt C10_MOBILE MASK IS_SYM y) /\
  only (compare_path_call op_le) (operator_le C10_MOBILE MASK IS_SYM y) /\
  only (compare_path_call op_gt) (operator_gt C10_MOBILE MASK IS_SYM y) /\
  only (compare_path_call op_ge) (operator_ge C10_MOBILE MASK IS_SYM y) /\
  only (guard_path_call file line) (guard_int C10_MOBILE MASK IS_SYM file line).
Proof.
  cbv zeta.
  assert (Ha : forall native op,
             logs (op_path_call op) w
               (snd (snd (arith C10_MOBILE MASK IS_SYM native op y (x, w))))).
  { intros native op.
    apply (arith_logs C10_MOBILE MASK IS_SYM (op_path_call op) native op y
             ltac:(intros; exact I) ltac:(intros; reflexivity) (x, w)). }
  assert (Hc : forall native op,
             logs (compare_path_call op) w
               (snd (snd (compare C10_MOBILE MASK IS_SYM native op y (x, w))))).
  { intros native op.
    apply (compare_logs C10_MOBILE MASK IS_SYM (compare_path_call op)
             ltac:(intros; exact I) native op y
             ltac:(intros; reflexivity) ltac:(intros; exact I) (x, w)). }
  repeat split; first [apply Ha | apply Hc | idtac].
  apply (guard_int_logs C10_MOBILE MASK IS_SYM file line (x, w)).
Qed.

(** ** One concrete and one symbolic operand *)

Section MixedOperands.
Variables MASK IS_SYM : Z.
Context {G : Type} {impl : SymIntNodeImpl G}.
Implicit Types (x y : SymInt) (w : world G).




End MixedOperands.


(** ** Symbolic in, symbolic out *)

Lemma arith_symbolic_result (MASK IS_SYM : Z) {G : Type} {impl : SymIntNodeImpl G}
    native op (x y z : SymInt) (w : world G) :
  0 <= MASK < 2 ^ 64 ->
  Z.land MASK IS_SYM = IS_SYM ->
  is_symbolic false MASK IS_SYM x || is_symbolic false MASK IS_SYM y = true ->
  fst (arith false MASK IS_SYM native op y (x, w)) = Ok z ->
  is_symbolic false MASK IS_SYM z = true.
Proof.
  intros HM HI Hsym.
  assert (Hfast : negb (is_symbolic false MASK IS_SYM x)
                  && negb (is_symbolic false MASK IS_SYM y) = false).
  { destruct (is_symbolic false MASK IS_SYM x), (is_symbolic false MASK IS_SYM y);
      try reflexivity; discriminate Hsym. }
  unfold arith, bind, this. cbn [fst snd]. rewrite Hfast.
  unfold static at 1. cbn [fst snd].
  destruct (normalize_symints false MASK IS_SYM x y w) as [[[ha hb]|e] w1];
    [|discriminate].
  unfold finally, bind, static, binary, dispatch, toSymInt, ret. cbn [fst snd].
  destruct (is_null ha); [discriminate|].
  destruct (node_binary op ha hb (mem w1)) as [[n|e] h']; [|discriminate].
  cbn [fst]. intros Hz. injection Hz as <-.
  apply toSymInt_word_is_symbolic; assumption.
Qed.

(** X10.  An arithmetic operator that has a symbolic operand never returns a
    concrete value: whenever it returns, what it returns is symbolic.  The
    tag constants are 64-bit and [IS_SYM] lies within [MASK]. *)
Theorem arithmetic_on_symbolic_is_symbolic
    (MASK IS_SYM : Z) {G : Type} {impl : SymIntNodeImpl G}
    (x y : SymInt) (w : world G) :
  0 <= MASK < 2 ^ 64 ->
  Z.land MASK IS_SYM = IS_SYM ->
  is_symbolic false MASK IS_SYM x || is_symbolic false MASK IS_SYM y = true ->
  let symbolic (f : method SymInt) :=
    forall z, fst (f (x, w)) = Ok z -> is_symbolic false MASK IS_SYM z = true in
  symbolic (operator_plus false MASK IS_SYM y) /\
  symbolic (operator_minus false MASK IS_SYM y) /\
  symbolic (operator_times false MASK IS_SYM y) /\
  symbolic (operator_div false MASK IS_SYM y) /\
  symbolic (operator_rem false MASK IS_SYM y).
Proof.
  intros HM HI Hsym symbolic. subst symbolic. cbv beta.
  unfold operator_plus, operator_minus, operator_times, operator_div, operator_rem.
  repeat split; intros z; apply arith_symbolic_result; assumption.
Qed.

(** [3 * v], with [v] the node at 16 of unknown value, is the word of a new
    node. *)
Lemma arithmetic_on_symbolic_is_symbolic_witness :
  exists z : SymInt,
    fst (operator_times false MASK_top2 IS_SYM_top sym16 (MkSymInt 3, toy_world)) = Ok z /\
    is_symbolic false MASK_top2 IS_SYM_top z = true.
Proof.
  exists (MkSymInt (to_i64 (Z.lor 48 IS_SYM_top))).
  assert (Hz : fst (operator_times false MASK_top2 IS_SYM_top sym16 (MkSymInt 3, toy_world))
               = Ok (MkSymInt (to_i64 (Z.lor 48 IS_SYM_top))))
    by (vm_compute; reflexivity).
  split; [exact Hz|].
  refine (proj1 (proj2 (proj2 (arithmetic_on_symbolic_is_symbolic MASK_top2 IS_SYM_top
                                 (MkSymInt 3) sym16 toy_world _ eq_refl eq_refl))) _ Hz).
  vm_compute. split; [discriminate | reflexivity].
Defined.

(** ** The mobile build, again *)


(** ** Multiply-assign *)

(** X12.  [x *= y] leaves in [x] what [x * y] returns, and when the product
    raises it leaves [x] as it was, its old value not destroyed.  On two
    concrete operands it stores the wrapped product and changes nothing
    else. *)
Theorem operator_times_assign_stores_product
    (C10_MOBILE : bool) (MASK IS_SYM : Z) {G : Type} {impl : SymIntNodeImpl G}
    (x y : SymInt) (w : world G) :
  let product :=
    by_value C10_MOBILE MASK IS_SYM (SymInt_copy C10_MOBILE MASK IS_SYM y)
      (operator_times C10_MOBILE MASK IS_SYM) (x, w) in
  let after := operator_times_assign C10_MOBILE MASK IS_SYM y (x, w) in
  match fst product with
  | Ok r =>
      after = (Ok tt, (r, SymInt_destroy C10_MOBILE MASK IS_SYM x (snd (snd product))))
  | Fail e => after = (Fail e, (x, snd (snd product)))
  end /\
  (is_symbolic C10_MOBILE MASK IS_SYM x = false ->
   is_symbolic C10_MOBILE MASK IS_SYM y = false ->
   after = (Ok tt, (MkSymInt (to_i64 (data_ x * data_ y)), w))).
Proof.
  cbv zeta. split.
  - pose proof (by_value_keeps C10_MOBILE MASK IS_SYM
                  (SymInt_copy C10_MOBILE MASK IS_SYM y)
                  (operator_times C10_MOBILE MASK IS_SYM)
                  (fun p => arith_keeps C10_MOBILE MASK IS_SYM native_mul op_mul p)
                  (x, w)) as Hk.
    unfold keeps, id in Hk. cbn [fst] in Hk.
    unfold operator_times_assign, bind, modify.
    destruct (by_value _ _ _ _ _ (x, w)) as [[r|e] [t w1]]; cbn [fst snd] in *.
    + subst t. reflexivity.
    + subst t. reflexivity.
  - intros Hx Hy. unfold operator_times_assign, bind, modify.
    rewrite (proj2 (by_value_concrete C10_MOBILE MASK IS_SYM _ y (x, w) Hy)).
    unfold operator_times.
    rewrite (arith_concrete C10_MOBILE MASK IS_SYM _ _ x y w Hx Hy).
    cbn [native_mul fst snd]. unfold SymInt_destroy. rewrite Hx. reflexivity.
Qed.

(** [x = 6; x *= 7] leaves 42 in [x]; with [x] the node at 16 of unknown
    value, [x *= 2] leaves in [x] the word of the product node. *)
Lemma operator_times_assign_stores_product_witness :
  operator_times_assign false MASK_top2 IS_SYM_top (MkSymInt 7) (MkSymInt 6, toy_world)
    = (Ok tt, (MkSymInt 42, toy_world)) /\
  fst (snd (operator_times_assign false MASK_top2 IS_SYM_top (MkSymInt 2) (sym16, toy_world)))
    = MkSymInt (to_i64 (Z.lor 48 IS_SYM_top)).
Proof.
  split.
  - exact (proj2 (operator_times_assign_stores_product false MASK_top2 IS_SYM_top
                    (MkSymInt 6) (MkSymInt 7) toy_world) eq_refl eq_refl).
  - vm_compute. reflexivity.
Defined.

(** ** The fast path, as arithmetic *)

(** X13.  On concrete operands the six comparisons agree with each other:
    [x > y] is [y < x], [x >= y] is [y <= x], [x <= y] is the negation of
    [x > y], [x == y] holds exactly when [x <= y] and [x >= y] do, and
    [x != y] exactly when [x < y] or [x > y] does. *)
Theorem concrete_comparisons_agree
    (C10_MOBILE : bool) (MASK IS_SYM : Z) {G : Type} {impl : SymIntNodeImpl G}
    (x y : SymInt) (w : world G) :
  is_symbolic C10_MOBILE MASK IS_SYM x = false ->
  is_symbolic C10_MOBILE MASK IS_SYM y = false ->
  let ans (f : SymInt -> method bool) (a b : SymInt) : outcome bool := fst (f b (a, w)) in
  let lift2 (g : bool -> bool -> bool) (r1 r2 : outcome bool) : outcome bool :=
    match r1, r2 with
    | Ok c1, Ok c2 => Ok (g c1 c2)
    | Fail e, _ => Fail e
    | _, Fail e => Fail e
    end in
  ans (operator_gt C10_MOBILE MASK IS_SYM) x y = ans (operator_lt C10_MOBILE MASK IS_SYM) y x /\
  ans (operator_ge C10_MOBILE MASK IS_SYM) x y = ans (operator_le C10_MOBILE MASK IS_SYM) y x /\
  ans (operator_le C10_MOBILE MASK IS_SYM) x y
    = match ans (operator_gt C10_MOBILE MASK IS_SYM) x y with
      | Ok c => Ok (negb c)
      | Fail e => Fail e
      end /\
  ans (operator_eq C10_MOBILE MASK IS_SYM) x y
    = lift2 andb (ans (operator_le C10_MOBILE MASK IS_SYM) x y)
                 (ans (operator_ge C10_MOBILE MASK IS_SYM) x y) /\
  ans (operator_ne C10_MOBILE MASK IS_SYM) x y
    = lift2 orb (ans (operator_lt C10_MOBILE MASK IS_SYM) x y)
                (ans (operator_gt C10_MOBILE MASK IS_SYM) x y).
Proof.
  intros Hx Hy. cbv zeta.
  unfold operator_ne, bind.
  rewrite (proj2 (by_value_concrete C10_MOBILE MASK IS_SYM _ y (x, w) Hy)).
  unfold operator_eq, operator_lt, operator_le, operator_gt, operator_ge.
  rewrite !(compare_concrete C10_MOBILE MASK IS_SYM _ _ x y w Hx Hy).
  rewrite !(compare_concrete C10_MOBILE MASK IS_SYM _ _ y x w Hy Hx).
  cbn [fst ret]. repeat split; f_equal.
  - apply Z.gtb_ltb.
  - apply Z.geb_leb.
  - rewrite Z.gtb_ltb. apply Z.leb_antisym.
  - rewrite Z.geb_leb.
    destruct (Z.eqb_spec (data_ x) (data_ y)) as [->|Hne].
    + rewrite Z.leb_refl. reflexivity.
    + destruct (Z.leb_spec (data_ x) (data_ y)), (Z.leb_spec (data_ y) (data_ x));
        try reflexivity; lia.
  - rewrite Z.gtb_ltb.
    destruct (Z.eqb_spec (data_ x) (data_ y)) as [->|Hne].
    + rewrite Z.ltb_irrefl. reflexivity.
    + destruct (Z.ltb_spec (data_ x) (data_ y)), (Z.ltb_spec (data_ y) (data_ x));
        try reflexivity; lia.
Qed.

Lemma concrete_comparisons_agree_witness :
  fst (operator_gt false MASK_top2 IS_SYM_top (MkSymInt (-7)) (MkSymInt 2, toy_world))
    = fst (operator_lt false MASK_top2 IS_SYM_top (MkSymInt 2) (MkSymInt (-7), toy_world)) /\
  fst (operator_gt false MASK_top2 IS_SYM_top (MkSymInt (-7)) (MkSymInt 2, toy_world)) = Ok true.
Proof.
  split; [|reflexivity].
  exact (proj1 (concrete_comparisons_agree false MASK_top2 IS_SYM_top
                  (MkSymInt 2) (MkSymInt (-7)) toy_world eq_refl eq_refl)).
Defined.




